(** * Tower defense engine: a shallow embedding of the tick simulation core.

    The development follows the TypeScript sources file by file:
    [position.ts], [list.ts], [vertex.ts] and [edge.ts], [actors.ts],
    [graph.ts], [world.ts], [phases.ts] and [engine.ts].  One module per
    source file holds the translated definitions; the theorems come after.

    Modelling conventions.
    - A JavaScript [number] that the program only uses as an integer
      (coordinates, identifiers, health, damage, hop counts) is a [Z].
    - The A* score is a genuine IEEE-754 double: it is a primitive [float].
    - The immutable cons list of [list.ts] is Rocq's [list]; [undefined] is
      [nil], so an empty list and an absent value are the same object.
    - A [throw] is an explicit [Throw] result; recursion that the source
      does not bound takes a [fuel] argument and answers [None] when the
      fuel is exhausted. *)

From Stdlib Require Import ZArith List Bool Lia.
From Stdlib Require Strings.String.
From Stdlib Require Import Floats.PrimFloat.
Import ListNotations String.StringSyntax.

Set Implicit Arguments.
Set Warnings "-register-all".
Open Scope string_scope.
Open Scope Z_scope.

(* ------------------------------------------------------------------ *)
(** ** position.ts *)

Module PositionTs.

Record Position : Type := createPosition { x : Z; y : Z }.

Definition getX (position : Position) : Z := x position.
Definition getY (position : Position) : Z := y position.

Definition translatePosition (position : Position) (dx dy : Z) : Position :=
  createPosition (getX position + dx) (getY position + dy).

Definition positionEquals (p1 p2 : Position) : bool :=
  (x p1 =? x p2) && (y p1 =? y p2).

(** Conversion of an integer-valued number to the double that holds it.
    Every step is exact below 2^53. *)
Fixpoint positiveToFloat (p : positive) : float :=
  match p with
  | xH => 1%float
  | xO q => (2 * positiveToFloat q)%float
  | xI q => (2 * positiveToFloat q + 1)%float
  end.

Definition numberOfZ (z : Z) : float :=
  match z with
  | Z0 => 0%float
  | Zpos p => positiveToFloat p
  | Zneg p => (- positiveToFloat p)%float
  end.

(** [Math.sqrt(Math.pow(dx, 2) + Math.pow(dy, 2))]; the square of an
    integer-valued double is the product with itself. *)
Definition positionDistance (pos1 pos2 : Position) : float :=
  let dx := numberOfZ (x pos1 - x pos2) in
  let dy := numberOfZ (y pos1 - y pos2) in
  PrimFloat.sqrt (dx * dx + dy * dy)%float.

End PositionTs.
Import PositionTs.

(* ------------------------------------------------------------------ *)
(** ** list.ts *)

Module ListTs.

Section Operations.
Variables T Acc : Type.

Definition isEmpty (l : list T) : bool :=
  match l with
  | [] => true
  | _ :: _ => false
  end.

(** [f(listFoldR(f, init, tail(l)), head(l))]: the last element is
    folded first. *)
Fixpoint listFoldR (f : Acc -> T -> Acc) (init : Acc) (l : list T) : Acc :=
  match l with
  | [] => init
  | hd :: tl => f (listFoldR f init tl) hd
  end.

Fixpoint appendList (l : list T) (elt : T) : list T :=
  match l with
  | [] => [elt]
  | hd :: tl => hd :: appendList tl elt
  end.

Fixpoint concatList (l1 l2 : list T) : list T :=
  match l1 with
  | [] => l2
  | hd :: tl => hd :: concatList tl l2
  end.
End Operations.

End ListTs.
Import ListTs.

(* ------------------------------------------------------------------ *)
(** ** Thrown values *)

Inductive exn : Type :=
| CantFindVertex (pos : Position)   (* "Can't find vertex at x y" *)
| UnexpectedError                   (* "Unexpected error" *)
| ListIsEmpty.                      (* Error('List is empty') *)

Inductive result (A : Type) : Type :=
| Ok (a : A)
| Throw (e : exn).
Arguments Ok {A} a.
Arguments Throw {A} e.

Definition bind {A B : Type} (r : result A) (k : A -> result B) : result B :=
  match r with
  | Ok a => k a
  | Throw e => Throw e
  end.

Notation "a <- r ;; k" := (bind r (fun a => k))
  (at level 61, r at next level, right associativity).

(* ------------------------------------------------------------------ *)
(** ** vertex.ts and edge.ts *)

Module VertexTs.

Inductive Vertex : Type :=
  createVertex { pos : Position; adj : list Edge }
with Edge : Type :=
  createEdge { weight : Z; vertex : Vertex }.

Definition vertexEquals (v1 v2 : Vertex) : bool :=
  positionEquals (pos v1) (pos v2).

Definition addEdge (v : Vertex) (edge : Edge) : Vertex :=
  createVertex (pos v) (appendList (adj v) edge).

(** The lookup of [vertex.ts]: throws when no vertex has the position. *)
Fixpoint getVertexByPos (vertexes : list Vertex) (p : Position) : result Vertex :=
  match vertexes with
  | [] => Throw (CantFindVertex p)
  | hd :: tl => if positionEquals (pos hd) p then Ok hd else getVertexByPos tl p
  end.

End VertexTs.
Import VertexTs.

(* ------------------------------------------------------------------ *)
(** ** actors.ts *)

Module ActorsTs.

Inductive ActorType : Type := ENEMY | TOWER | SPAWNER | GOAL | WALL | UNKNOWN.

Definition actorTypeEquals (t1 t2 : ActorType) : bool :=
  match t1, t2 with
  | ENEMY, ENEMY | TOWER, TOWER | SPAWNER, SPAWNER
  | GOAL, GOAL | WALL, WALL | UNKNOWN, UNKNOWN => true
  | _, _ => false
  end.

(** The behaviours of [actorsTemplate.ts], named instead of stored as
    closures: an actor carries at most one of them per phase. *)
Inductive MoveAction : Type :=
| MoveTowardsGoal.
Inductive AttackAction : Type :=
| AttackRandomTarget (goalRange towerRange enemyRange : option Z) (dmg : Z)
| AttackSelf (dmg : Z).
Inductive SpawnAction : Type :=
| SpawnWhenHealthDivisibleBy (interval : Z).
Inductive HealAction : Type :=
| HealSelf (amount : Z).

Record ActorActions : Type := {
  move : option MoveAction;
  attack : option AttackAction;
  spawn : option SpawnAction;
  heal : option HealAction
}.

Record Actor : Type := {
  id : Z;
  position : Position;
  type : ActorType;
  name : String.string;
  health : Z;
  maxHealth : Z;
  actions : ActorActions
}.

(** [{ ...anActor, actions: { ...anActor.actions } }]: a copy is the same
    value. *)
Definition copyActor (anActor : Actor) : Actor := anActor.

Definition setLifePoint (anActor : Actor) (newHealth : Z) : Actor :=
  {| id := id anActor; position := position anActor; type := type anActor;
     name := name anActor; health := newHealth;
     maxHealth := maxHealth anActor; actions := actions anActor |}.

Definition setActorPosition (anActor : Actor) (newPosition : Position) : Actor :=
  {| id := id anActor; position := newPosition; type := type anActor;
     name := name anActor; health := health anActor;
     maxHealth := maxHealth anActor; actions := actions anActor |}.

Fixpoint getActorById (actors : list Actor) (anId : Z) : option Actor :=
  match actors with
  | [] => None
  | hd :: tl => if id hd =? anId then Some (copyActor hd) else getActorById tl anId
  end.

Fixpoint replaceActor (actors : list Actor) (newActor : Actor) : list Actor :=
  match actors with
  | [] => []
  | hd :: tl =>
      if id hd =? id newActor then newActor :: tl
      else hd :: replaceActor tl newActor
  end.

Definition getActorsAtPos (actors : list Actor) (p : Position) : list Actor :=
  listFoldR (fun acc elt => if positionEquals (position elt) p then elt :: acc else acc)
            [] actors.

Definition getActorsByType (actors : list Actor) (t : ActorType) : list Actor :=
  listFoldR (fun acc actor => if actorTypeEquals (type actor) t then appendList acc actor else acc)
            [] actors.

Fixpoint removeActor (actors : list Actor) (anId : Z) : list Actor :=
  match actors with
  | [] => []
  | hd :: tl => if id hd =? anId then tl else hd :: removeActor tl anId
  end.

Definition isWalkableByEnemy (actors : list Actor) (p : Position) : bool :=
  listFoldR (fun (acc : bool) actor =>
               if actorTypeEquals (type actor) ENEMY || actorTypeEquals (type actor) GOAL
               then acc else false)
            true (getActorsAtPos actors p).

End ActorsTs.
Import ActorsTs.

(* ------------------------------------------------------------------ *)
(** ** graph.ts *)

Module GraphTs.

Record Graph : Type := createGraph { vertexes : list Vertex; n : Z }.

Definition isEmptyGraph (G : Graph) : bool := (n G =? 0) && isEmpty (vertexes G).

Definition createEmptyGraph : Graph := createGraph [] 0.

(** A search node; [parent] is [None] for the root.  The field [vertex] is
    prefixed, [Edge] having one of that name. *)
Inductive Node : Type :=
  mkNode { nvertex : Vertex; parent : option Node; distance : Z; score : float }.

Definition makeNode (parentNode : option Node) (v : Vertex) (dst : Position) : Node :=
  let d := match parentNode with
           | Some p => distance p + 1
           | None => 0
           end in
  mkNode v parentNode d (numberOfZ d + positionDistance (pos v) dst)%float.

(** [head(nodes)] throws on the empty list. *)
Definition extractClosestNode (nodes : list Node) : result Node :=
  match nodes with
  | [] => Throw ListIsEmpty
  | hd :: _ =>
      Ok (listFoldR (fun acc node => if PrimFloat.ltb (score node) (score acc) then node else acc)
                    hd nodes)
  end.

Fixpoint reconstructPath (node : Node) : list Vertex :=
  match node with
  | mkNode v None _ _ => [v]
  | mkNode v (Some p) _ _ => appendList (reconstructPath p) v
  end.

Fixpoint isNodeInList (nodes : list Node) (node : Node) : bool :=
  match nodes with
  | [] => false
  | hd :: tl =>
      if positionEquals (pos (nvertex hd)) (pos (nvertex node)) then true
      else isNodeInList tl node
  end.

Fixpoint updateNodeInList (nodes : list Node) (node : Node) : result (list Node) :=
  match nodes with
  | [] => Throw UnexpectedError
  | hd :: tl =>
      if positionEquals (pos (nvertex hd)) (pos (nvertex node)) then
        if distance node <? distance hd then Ok (node :: tl) else Ok nodes
      else
        rest <- updateNodeInList tl node ;; Ok (hd :: rest)
  end.

Fixpoint removeNodeFromList (nodes : list Node) (node : Node) : list Node :=
  match nodes with
  | [] => []
  | hd :: tl =>
      if positionEquals (pos (nvertex hd)) (pos (nvertex node)) then tl
      else hd :: removeNodeFromList tl node
  end.

(** The callback folded over [current.vertex.adj] by [pathfindingRec]. *)
Definition visitEdge (current : Node) (dst : Position) (G : Graph) (actors : list Actor)
           (lists : list Node * list Node) (edge : Edge) : result (list Node * list Node) :=
  let (openList, closedList) := lists in
  v <- getVertexByPos (vertexes G) (pos (vertex edge)) ;;
  let neighbor := makeNode (Some current) v dst in
  if isNodeInList closedList neighbor then Ok (openList, closedList)
  else if negb (isWalkableByEnemy actors (pos (nvertex neighbor))) then
    Ok (openList, neighbor :: closedList)
  else if negb (isNodeInList openList neighbor) then
    Ok (appendList openList neighbor, closedList)
  else
    updated <- updateNodeInList openList neighbor ;; Ok (updated, closedList).

(** [None]: the fuel ran out before the search ended. *)
Fixpoint pathfindingRec (fuel : nat) (openList closedList : list Node) (dst : Position)
         (G : Graph) (actors : list Actor) : option (result (list Vertex)) :=
  match fuel with
  | O => None
  | S fuel' =>
      if isEmpty openList then Some (Ok [])
      else
        match extractClosestNode openList with
        | Throw e => Some (Throw e)
        | Ok current =>
            let openList1 := removeNodeFromList openList current in
            if positionEquals (pos (nvertex current)) dst then
              Some (Ok (reconstructPath current))
            else
              let closedList1 := appendList closedList current in
              match listFoldR (fun acc edge => lists <- acc ;; visitEdge current dst G actors lists edge)
                              (Ok (openList1, closedList1)) (adj (nvertex current)) with
              | Throw e => Some (Throw e)
              | Ok (openList2, closedList2) =>
                  pathfindingRec fuel' openList2 closedList2 dst G actors
              end
        end
  end.

Definition pathfinding (fuel : nat) (src dst : Position) (G : Graph) (actors : list Actor)
  : option (result (list Vertex)) :=
  match getVertexByPos (vertexes G) src with
  | Throw e => Some (Throw e)
  | Ok v => pathfindingRec fuel [makeNode None v dst] [] dst G actors
  end.

End GraphTs.
Import GraphTs.

(* ------------------------------------------------------------------ *)
(** ** world.ts *)

Module WorldTs.

Record World : Type := { graph : Graph; size : Position }.

Definition nextPos (currentPos size : Position) : Position :=
  if x currentPos >=? x size then createPosition 0 (y currentPos + 1)
  else createPosition (x currentPos + 1) (y currentPos).

(** The source recurses until [currentPos] equals [size]; [None] when the
    fuel does not reach it. *)
Fixpoint createVertexesRec (fuel : nat) (currentPos size : Position) : option (list Vertex) :=
  match fuel with
  | O => None
  | S fuel' =>
      if positionEquals currentPos size then
        Some (appendList [] (createVertex currentPos []))
      else
        match createVertexesRec fuel' (nextPos currentPos size) size with
        | None => None
        | Some rest => Some (appendList rest (createVertex currentPos []))
        end
  end.

(** The lookup local to [world.ts]: a vertex at (-1,-1) when absent. *)
Fixpoint getVertexByPos (vertexes : list Vertex) (p : Position) : Vertex :=
  match vertexes with
  | [] => createVertex (createPosition (-1) (-1)) []
  | hd :: tl => if positionEquals (pos hd) p then hd else getVertexByPos tl p
  end.

(** The four conditional [addEdge] steps that [addEdgesToGraphRec] applies
    to the head of its cursor: left, right, above, below. *)
Definition addEdges (vertexes : list Vertex) (size : Position) (v0 : Vertex) : Vertex :=
  let v1 := if x (pos v0) >? 0
            then addEdge v0 (createEdge 1 (getVertexByPos vertexes (createPosition (x (pos v0) - 1) (y (pos v0)))))
            else v0 in
  let v2 := if x (pos v1) <? x size
            then addEdge v1 (createEdge 1 (getVertexByPos vertexes (createPosition (x (pos v1) + 1) (y (pos v1)))))
            else v1 in
  let v3 := if y (pos v2) >? 0
            then addEdge v2 (createEdge 1 (getVertexByPos vertexes (createPosition (x (pos v2)) (y (pos v2) - 1))))
            else v2 in
  if y (pos v3) <? y size
  then addEdge v3 (createEdge 1 (getVertexByPos vertexes (createPosition (x (pos v3)) (y (pos v3) + 1))))
  else v3.

Fixpoint addEdgesToGraphRec (vertexes : list Vertex) (size : Position) (cursor : list Vertex)
  : list Vertex :=
  match cursor with
  | [] => []
  | hd :: tl => appendList (addEdgesToGraphRec vertexes size tl) (addEdges vertexes size hd)
  end.

Definition addEdgesToGraph (vertexes : list Vertex) (size : Position) : list Vertex :=
  addEdgesToGraphRec vertexes size vertexes.

Definition buildWorld (fuel : nat) (size : Position) : option World :=
  match createVertexesRec fuel (createPosition 0 0) size with
  | None => None
  | Some vs =>
      Some {| graph := createGraph (addEdgesToGraph vs size) (x size * y size);
              size := size |}
  end.

Definition isInWorld (world : World) (p : Position) : bool :=
  (x p >=? 0) && (x p <=? x (size world)) && (y p >=? 0) && (y p <=? y (size world)).

Definition getDimensionWorld (world : World) : Position := size world.

End WorldTs.
Import WorldTs.

(* ------------------------------------------------------------------ *)
(** ** phases.ts *)

Module PhasesTs.

(** [{ id: number, damage: number }] and [{ id: number, heal: number }];
    the field [id] is prefixed, a record field name being global here. *)
Record Attack : Type := { attackId : Z; damage : Z }.
Record Heal : Type := { healId : Z; healAmount : Z }.

(** [MoveProposal = Actor], with [undefined] for an actor that proposes
    nothing; [SpawnProposal = Actor | undefined]. *)
Definition MoveProposal : Type := option Actor.
Definition SpawnProposal : Type := option Actor.
(** Cons lists: the empty list is [undefined], hence falsy. *)
Definition AttackProposal : Type := list Attack.
Definition HealProposal : Type := list Heal.

Definition Resolver (P : Type) : Type :=
  World -> list Actor -> list P -> World * list Actor.

(** A phase: the constructor stands for [funcName], which fixes the type
    of the proposals its resolver consumes. *)
Inductive Phase : Type :=
| MovePhase (resolver : Resolver MoveProposal)
| AttackPhase (resolver : Resolver AttackProposal)
| SpawnPhase (resolver : Resolver SpawnProposal)
| HealPhase (resolver : Resolver HealProposal).

Definition funcName (p : Phase) : String.string :=
  match p with
  | MovePhase _ => "move"
  | AttackPhase _ => "attack"
  | SpawnPhase _ => "spawn"
  | HealPhase _ => "heal"
  end.

Definition moveResolver : Resolver MoveProposal :=
  fun aWorld actors proposals =>
    listFoldR (fun acc proposal =>
                 match proposal with
                 | Some p =>
                     if isInWorld aWorld (position p)
                     then (fst acc, replaceActor (snd acc) p)
                     else acc
                 | None => acc
                 end)
              (aWorld, actors) proposals.

(** The inner callback of the attack resolver. *)
Definition applyAttack (acc2 : World * list Actor) (attack : Attack) : World * list Actor :=
  match getActorById (snd acc2) (attackId attack) with
  | Some anActor =>
      if health anActor <=? damage attack
      then (fst acc2, removeActor (snd acc2) (id anActor))
      else (fst acc2, replaceActor (snd acc2) (setLifePoint anActor (health anActor - damage attack)))
  | None => acc2
  end.

Definition attackResolver : Resolver AttackProposal :=
  fun aWorld actors proposals =>
    listFoldR (fun acc proposal =>
                 match proposal with
                 | _ :: _ => listFoldR applyAttack acc proposal
                 | [] => acc
                 end)
              (aWorld, actors) proposals.

Definition spawnResolver : Resolver SpawnProposal :=
  fun aWorld actors proposals =>
    listFoldR (fun acc proposal =>
                 match proposal with
                 | Some p => (fst acc, appendList actors p)
                 | None => acc
                 end)
              (aWorld, actors) proposals.

(** The inner callback of the heal resolver. *)
Definition applyHeal (acc2 : World * list Actor) (h : Heal) : World * list Actor :=
  match getActorById (snd acc2) (healId h) with
  | Some anActor =>
      if health anActor + healAmount h >? maxHealth anActor
      then (fst acc2, replaceActor (snd acc2) (setLifePoint anActor (maxHealth anActor)))
      else (fst acc2, replaceActor (snd acc2) (setLifePoint anActor (health anActor + healAmount h)))
  | None => acc2
  end.

Definition healResolver : Resolver HealProposal :=
  fun aWorld actors proposals =>
    listFoldR (fun acc proposal =>
                 match proposal with
                 | _ :: _ => listFoldR applyHeal acc proposal
                 | [] => acc
                 end)
              (aWorld, actors) proposals.

Definition computePhases (world : World) (actors : list Actor) : list Phase :=
  [ MovePhase moveResolver;
    AttackPhase attackResolver;
    SpawnPhase spawnResolver;
    HealPhase healResolver ].

End PhasesTs.
Import PhasesTs.

(* ------------------------------------------------------------------ *)
(** ** engine.ts *)

Module EngineTs.

Inductive Winner : Type := WinnerENEMY | WinnerTOWER | WinnerNONE.

Definition gameIsOver (aWorld : World) (actors : list Actor) : Winner :=
  if isEmpty (getActorsByType actors ENEMY) && isEmpty (getActorsByType actors SPAWNER)
  then WinnerTOWER
  else if isEmpty (getActorsByType actors GOAL)
  then WinnerENEMY
  else WinnerNONE.

End EngineTs.
Import EngineTs.

(* ------------------------------------------------------------------ *)
(** ** actorsTemplate.ts: the archetypes used as sample inputs *)

Module ActorsTemplateTs.

Definition enemyActions (goalRange dmg : Z) : ActorActions :=
  {| move := Some MoveTowardsGoal;
     attack := Some (AttackRandomTarget (Some goalRange) (Some 1) None dmg);
     spawn := None;
     heal := Some (HealSelf 10) |}.

Definition towerActions (dmg : Z) : ActorActions :=
  {| move := None;
     attack := Some (AttackRandomTarget None None (Some 2) dmg);
     spawn := None;
     heal := Some (HealSelf 10) |}.

Definition remyWithSpoon : Actor :=
  {| id := -1; position := createPosition 0 5; type := ENEMY;
     name := "Remy with a Spoon"; health := 200; maxHealth := 200;
     actions := enemyActions 1 20 |}.

Definition gusteauWithPan : Actor :=
  {| id := -1; position := createPosition 5 5; type := TOWER;
     name := "Gusteau with a Pan"; health := 200; maxHealth := 200;
     actions := towerActions 20 |}.

Definition linguini : Actor :=
  {| id := -1; position := createPosition 8 5; type := GOAL;
     name := "Linguini"; health := 50; maxHealth := 50;
     actions := {| move := None; attack := None; spawn := None;
                   heal := Some (HealSelf 5) |} |}.

Definition marmite : Actor :=
  {| id := -1; position := createPosition 1 1; type := WALL;
     name := "Marmite"; health := 1000; maxHealth := 1000;
     actions := {| move := None; attack := None; spawn := None; heal := None |} |}.

Definition hole : Actor :=
  {| id := -1; position := createPosition 0 5; type := SPAWNER;
     name := "Hole"; health := 20; maxHealth := 20;
     actions := {| move := None; attack := Some (AttackSelf 1);
                   spawn := Some (SpawnWhenHealthDivisibleBy 3); heal := None |} |}.

(** [copyNewActor] with the identifier it draws made explicit. *)
Definition copyNewActor (anActor : Actor) (newId : Z) : Actor :=
  {| id := newId; position := position anActor; type := type anActor;
     name := name anActor; health := health anActor;
     maxHealth := maxHealth anActor; actions := actions anActor |}.

End ActorsTemplateTs.
Import ActorsTemplateTs.

(* ------------------------------------------------------------------ *)
(** ** Vocabulary of the statements *)

(** A resolver that hands back the world it was given. *)
Definition preservesWorld (P : Type) (r : Resolver P) : Prop :=
  forall (aWorld : World) (actors : list Actor) (proposals : list P),
    fst (r aWorld actors proposals) = aWorld.

Definition phasePreservesWorld (ph : Phase) : Prop :=
  match ph with
  | MovePhase r => preservesWorld r
  | AttackPhase r => preservesWorld r
  | SpawnPhase r => preservesWorld r
  | HealPhase r => preservesWorld r
  end.

(** The data-model invariant on health. *)
Definition healthInRange (a : Actor) : Prop := 0 < health a <= maxHealth a.

(** The identifiers named by the move proposals of a phase. *)
Definition proposedIds (proposals : list MoveProposal) : list Z :=
  flat_map (fun proposal => match proposal with
                            | Some p => [id p]
                            | None => []
                            end) proposals.

(** The world of size (10,10) of [main.ts], without its graph, which no
    resolver reads. *)
Definition boardWorld : World :=
  {| graph := createEmptyGraph; size := createPosition 10 10 |}.

(** A registry of three actors with the identifiers 0, 1 and 2. *)
Definition sampleRegistry : list Actor :=
  [copyNewActor linguini 0; copyNewActor remyWithSpoon 1; copyNewActor gusteauWithPan 2].

(** The move proposal that wins for an identifier: proposals being folded
    from the last to the first, it is the first one of the list that is
    inside the world and carries the identifier. *)
Fixpoint winningMove (aWorld : World) (proposals : list MoveProposal) (anId : Z)
  : option Actor :=
  match proposals with
  | [] => None
  | Some p :: rest =>
      if (id p =? anId) && isInWorld aWorld (position p) then Some p
      else winningMove aWorld rest anId
  | None :: rest => winningMove aWorld rest anId
  end.

(** The cells that [createVertexesRec] still has to visit from [cur]:
    [cur] itself and those after it in row order, up to [size]. *)
Definition fromCell (size cur p : Position) : Prop :=
  0 <= x p <= x size /\ y p <= y size
  /\ (y cur < y p \/ (y p = y cur /\ x cur <= x p)).

(** Number of cells after [cur] in row order. *)
Definition cellsAfter (size cur : Position) : Z :=
  (y size - y cur) * (x size + 1) + (x size - x cur).

(** A search node reached on foot from [src]: its root sits on [src], and
    every node below the root sits on a cell walkable by an enemy. *)
Fixpoint reachedOnFoot (src : Position) (actors : list Actor) (node : Node) : Prop :=
  match node with
  | mkNode v None _ _ => pos v = src
  | mkNode v (Some p) _ _ =>
      isWalkableByEnemy actors (pos v) = true /\ reachedOnFoot src actors p
  end.

(** A vertex a returned path may hold: the source, or a walkable cell. *)
Definition passable (src : Position) (actors : list Actor) (v : Vertex) : Prop :=
  pos v = src \/ isWalkableByEnemy actors (pos v) = true.

(** The occupants that close a cell to enemies. *)
Definition blocking (t : ActorType) : Prop :=
  t = TOWER \/ t = WALL \/ t = SPAWNER \/ t = UNKNOWN.

(* ------------------------------------------------------------------ *)
(** ** list.ts, the remaining operations *)

Module ListLibTs.

Section Total.
Variable T : Type.

Fixpoint listEquals (l1 l2 : list T) (cmpFunc : T -> T -> bool) : bool :=
  match l1, l2 with
  | [], [] => true
  | [], _ :: _ | _ :: _, [] => false
  | hd1 :: tl1, hd2 :: tl2 => cmpFunc hd1 hd2 && listEquals tl1 tl2 cmpFunc
  end.

Fixpoint copyList (l : list T) : list T :=
  match l with
  | [] => []
  | hd :: tl => hd :: copyList tl
  end.

Fixpoint addAtList (l : list T) (elt : T) (pos : Z) : list T :=
  match l with
  | [] => [elt]
  | hd :: tl =>
      if pos <=? 0 then elt :: copyList l
      else hd :: addAtList tl elt (pos - 1)
  end.

Fixpoint removeAtList (l : list T) (pos : Z) : list T :=
  match l with
  | [] => []
  | hd :: tl =>
      if pos <=? 0 then copyList tl
      else hd :: removeAtList tl (pos - 1)
  end.

Definition changeListAt (l : list T) (elt : T) (pos : Z) : list T :=
  addAtList (removeAtList l pos) elt pos.

Fixpoint listLengthINT (l : list T) (res : Z) : Z :=
  match l with
  | [] => res
  | _ :: tl => listLengthINT tl (res + 1)
  end.

Definition listLength (l : list T) : Z := listLengthINT l 0.

Fixpoint searchListINT (l : list T) (elt : T) (pos : Z) (cmpFunc : T -> T -> bool) : Z :=
  match l with
  | [] => -1
  | hd :: tl =>
      if cmpFunc hd elt then pos
      else searchListINT tl elt (pos + 1) cmpFunc
  end.

Definition searchList (l : list T) (elt : T) (cmpFunc : T -> T -> bool) : Z :=
  searchListINT l elt 0 cmpFunc.

(** [readListAt] throws a bare [new Error] once the list is exhausted:
    [None] here, that error carrying nothing. *)
Fixpoint readListAt (l : list T) (pos : Z) : option T :=
  match l with
  | [] => None
  | hd :: tl =>
      if pos <=? 0 then Some hd
      else readListAt tl (pos - 1)
  end.
End Total.

End ListLibTs.
Import ListLibTs.

(* ------------------------------------------------------------------ *)
(** ** actors.ts, the queries *)

Module ActorQueriesTs.

(** The eight cells around a position, in the order of the source array. *)
Definition neighborCells (p : Position) : list Position :=
  [ translatePosition p (-1) (-1); translatePosition p (-1) 0; translatePosition p (-1) 1;
    translatePosition p 0 (-1); translatePosition p 0 1;
    translatePosition p 1 (-1); translatePosition p 1 0; translatePosition p 1 1 ].

Definition getNeighbors (anActor : Actor) (actors : list Actor) : list Actor :=
  listFoldR (fun acc p => concatList acc (getActorsAtPos actors p))
            [] (neighborCells (position anActor)).

Definition getGoals (actors : list Actor) : list Actor := getActorsByType actors GOAL.

(** [Math.sqrt(Math.pow(dx, 2) + Math.pow(dy, 2))] on the two positions. *)
Definition actorDistance (actor1 actor2 : Actor) : float :=
  let dx := numberOfZ (x (position actor1) - x (position actor2)) in
  let dy := numberOfZ (y (position actor1) - y (position actor2)) in
  PrimFloat.sqrt (dx * dx + dy * dy)%float.

(** The accumulator of the fold is an actor from its first step on, so the
    [throw] guarded by [!acc] is unreachable and has no counterpart here. *)
Definition chooseGoal (anActor : Actor) (actors : list Actor) : option Actor :=
  match getGoals actors with
  | [] => None
  | first :: _ =>
      Some (listFoldR (fun acc goal =>
                         if PrimFloat.ltb (actorDistance anActor goal) (actorDistance anActor acc)
                         then goal else acc)
                      first (getGoals actors))
  end.

Definition getAllActorsInRange (actors : list Actor) (actor : Actor) (range : float)
  : list Actor :=
  listFoldR (fun acc elt =>
               if PrimFloat.leb (actorDistance elt actor) range && negb (id elt =? id actor)
               then appendList acc elt else acc)
            [] actors.

(** [None]: the fuel of the search ran out. *)
Definition getNextEnemyPos (fuel : nat) (actor : Actor) (actors : list Actor) (world : World)
  : option (result Position) :=
  match chooseGoal actor actors with
  | None => Some (Ok (position actor))
  | Some goal =>
      match pathfinding fuel (position actor) (position goal) (graph world) actors with
      | None => None
      | Some (Throw e) => Some (Throw e)
      | Some (Ok path) =>
          match path with
          | [] | [_] => Some (Ok (position actor))
          | _ :: second :: _ => Some (Ok (pos second))
          end
      end
  end.

End ActorQueriesTs.
Import ActorQueriesTs.

(* ------------------------------------------------------------------ *)
(** ** actors.ts, the initial registry *)

Module InitialActorsTs.

Definition worktop : Actor :=
  {| id := -1; position := createPosition 1 1; type := WALL;
     name := "Worktop"; health := 1000; maxHealth := 1000;
     actions := {| move := None; attack := None; spawn := None; heal := None |} |}.

Definition remyThrowingCheese : Actor :=
  {| id := -1; position := createPosition 1 1; type := ENEMY;
     name := "Remy Throwing Cheese"; health := 200; maxHealth := 200;
     actions := enemyActions 3 10 |}.

(** The archetype and the cell of each entry of the array, in its order. *)
Definition initialPlacements : list (Actor * Position) :=
  [ (worktop, createPosition 0 10); (worktop, createPosition 1 10);
    (worktop, createPosition 3 10); (worktop, createPosition 4 10);
    (worktop, createPosition 5 10); (worktop, createPosition 8 10);
    (worktop, createPosition 9 10); (worktop, createPosition 10 10);
    (marmite, createPosition 2 10); (marmite, createPosition 6 10);
    (marmite, createPosition 7 10);
    (worktop, createPosition 0 0); (worktop, createPosition 1 0);
    (worktop, createPosition 2 0); (worktop, createPosition 3 0);
    (worktop, createPosition 5 0); (worktop, createPosition 7 0);
    (worktop, createPosition 9 0); (worktop, createPosition 10 0);
    (marmite, createPosition 4 0); (marmite, createPosition 6 0);
    (marmite, createPosition 8 0);
    (hole, createPosition 0 5);
    (remyWithSpoon, createPosition 0 5); (remyWithSpoon, createPosition 0 4);
    (remyWithSpoon, createPosition 0 6);
    (remyThrowingCheese, createPosition 1 7); (remyThrowingCheese, createPosition 1 3);
    (gusteauWithPan, createPosition 5 5); (gusteauWithPan, createPosition 5 4);
    (gusteauWithPan, createPosition 5 6); (gusteauWithPan, createPosition 6 7);
    (gusteauWithPan, createPosition 6 3); (gusteauWithPan, createPosition 9 2);
    (gusteauWithPan, createPosition 9 8);
    (linguini, createPosition 8 5) ].

(** [copyNewActor(setActorPosition(t, p))] for each entry from the first to
    the last, the counter [id_value] being read and incremented by each
    [getNewId()]; the final counter is returned with the list. *)
Fixpoint placeActors (placements : list (Actor * Position)) (id_value : Z)
  : list Actor * Z :=
  match placements with
  | [] => ([], id_value)
  | (template, p) :: rest =>
      let placed := copyNewActor (setActorPosition template p) id_value in
      let (others, final) := placeActors rest (id_value + 1) in
      (placed :: others, final)
  end.

Definition initializeActors (aWorld : World) (id_value : Z) : list Actor * Z :=
  placeActors initialPlacements id_value.

End InitialActorsTs.
Import InitialActorsTs.

(* ------------------------------------------------------------------ *)
(** ** Vocabulary of the further properties *)

(** The cells next to [p] inside the rectangle [0,size], in the order in
    which [addEdgesToGraph] visits them: left, right, above, below. *)
Definition cardinalCells (size p : Position) : list Position :=
  (if x p >? 0 then [createPosition (x p - 1) (y p)] else [])
  ++ (if x p <? x size then [createPosition (x p + 1) (y p)] else [])
  ++ (if y p >? 0 then [createPosition (x p) (y p - 1)] else [])
  ++ (if y p <? y size then [createPosition (x p) (y p + 1)] else []).

(** The edge that [addEdgesToGraph] creates towards a cell: weight 1, to the
    vertex of the cell as it was before any edge was added. *)
Definition bareEdge (q : Position) : Edge := createEdge 1 (createVertex q []).

(** A graph whose every edge leads to the position of one of its vertices. *)
Definition edgesResolved (G : Graph) : Prop :=
  forall v e, In v (vertexes G) -> In e (adj v) ->
              In (pos (vertex e)) (map pos (vertexes G)).

(** The position a search node stands on. *)
Definition nodePos (node : Node) : Position := pos (nvertex node).

(** A search node whose chain of parents starts on [src], stays on vertices
    of [G], follows one edge of the parent at each link and counts the
    links in [distance]. *)
Fixpoint tracedFrom (G : Graph) (src : Position) (node : Node) : Prop :=
  match node with
  | mkNode v None d _ => In v (vertexes G) /\ pos v = src /\ d = 0
  | mkNode v (Some p) d _ =>
      In v (vertexes G)
      /\ (exists e, In e (adj (nvertex p)) /\ pos (vertex e) = pos v)
      /\ d = distance p + 1
      /\ tracedFrom G src p
  end.

(** A sequence of vertices in which each one is reached from the one before
    by one of its edges. *)
Fixpoint followsEdges (path : list Vertex) : Prop :=
  match path with
  | u :: rest =>
      match rest with
      | v :: _ => (exists e, In e (adj u) /\ pos (vertex e) = pos v) /\ followsEdges rest
      | [] => True
      end
  | [] => True
  end.

(** The damage, respectively the healing, that a list of pairs aims at an
    identifier. *)
Definition totalDamage (anId : Z) (attacks : list Attack) : Z :=
  fold_right (fun atk total => if attackId atk =? anId then damage atk + total else total)
             0 attacks.

Definition totalHeal (anId : Z) (heals : list Heal) : Z :=
  fold_right (fun h total => if healId h =? anId then healAmount h + total else total)
             0 heals.

(** What the open and closed lists of the search satisfy between two
    iterations: the open nodes are traced from [src], stand on walkable
    cells and on pairwise distinct cells, none of which is closed; the closed
    nodes stand on pairwise distinct cells of the graph. *)
Definition searchInvariant (G : Graph) (src : Position) (actors : list Actor)
           (openList closedList : list Node) : Prop :=
  Forall (tracedFrom G src) openList
  /\ Forall (fun node => isWalkableByEnemy actors (nodePos node) = true) openList
  /\ NoDup (map nodePos openList)
  /\ NoDup (map nodePos closedList)
  /\ (forall p, In p (map nodePos openList) -> ~ In p (map nodePos closedList))
  /\ incl (map nodePos closedList) (map pos (vertexes G)).

(* ================================================================== *)
(** * Properties *)

(** ** The list library against the standard one *)

Section ListFacts.
Variables T Acc : Type.

Lemma appendList_app (l : list T) (elt : T) : appendList l elt = l ++ [elt].
Proof. induction l as [|hd tl IH]; simpl; [reflexivity | now rewrite IH]. Qed.

Lemma listFoldR_app (f : Acc -> T -> Acc) (init : Acc) (l1 l2 : list T) :
  listFoldR f init (l1 ++ l2) = listFoldR f (listFoldR f init l2) l1.
Proof. induction l1 as [|hd tl IH]; simpl; [reflexivity | now rewrite IH]. Qed.

(** The right fold visits the elements from the last to the first. *)
Lemma listFoldR_fold_left (f : Acc -> T -> Acc) (init : Acc) (l : list T) :
  listFoldR f init l = fold_left f (rev l) init.
Proof.
  induction l as [|hd tl IH]; simpl; [reflexivity|].
  now rewrite fold_left_app, <- IH.
Qed.

Lemma isEmpty_true (l : list T) : isEmpty l = true <-> l = [].
Proof. destruct l; simpl; split; congruence. Qed.

(** A fold whose callback always hands back something satisfying [P]. *)
Lemma listFoldR_invariant (P : Acc -> Prop) (f : Acc -> T -> Acc) (init : Acc) (l : list T) :
  P init -> (forall acc elt, In elt l -> P acc -> P (f acc elt)) -> P (listFoldR f init l).
Proof.
  intros Hinit Hstep. induction l as [|hd tl IH]; simpl; [assumption|].
  apply Hstep; [now left|]. apply IH. intros acc elt Hin. apply Hstep. now right.
Qed.
End ListFacts.

(** ** Positions *)

Lemma positionEquals_eq (p1 p2 : Position) : positionEquals p1 p2 = true <-> p1 = p2.
Proof.
  unfold positionEquals. rewrite andb_true_iff, !Z.eqb_eq.
  destruct p1, p2; simpl. split; [intros [-> ->]; reflexivity | intros E; inversion E; auto].
Qed.

Lemma positionEquals_refl (p : Position) : positionEquals p p = true.
Proof. now apply positionEquals_eq. Qed.

Lemma positionEquals_neq (p1 p2 : Position) : positionEquals p1 p2 = false <-> p1 <> p2.
Proof.
  rewrite <- positionEquals_eq. destruct (positionEquals p1 p2); split; congruence.
Qed.

Lemma isInWorld_bounds (w : World) (p : Position) :
  isInWorld w p = true <-> (0 <= x p <= x (size w) /\ 0 <= y p <= y (size w)).
Proof. unfold isInWorld. rewrite !andb_true_iff. lia. Qed.

Lemma actorTypeEquals_eq (t1 t2 : ActorType) : actorTypeEquals t1 t2 = true <-> t1 = t2.
Proof. destruct t1, t2; simpl; split; congruence. Qed.

(** ** The registry operations *)

Section Registry.

Lemma getActorById_Some (actors : list Actor) (anId : Z) (a : Actor) :
  getActorById actors anId = Some a -> In a actors /\ id a = anId.
Proof.
  induction actors as [|hd tl IH]; simpl; [discriminate|].
  destruct (id hd =? anId) eqn:E.
  - intros [= <-]. split; [now left | now apply Z.eqb_eq].
  - intros H. destruct (IH H). split; [now right | assumption].
Qed.

Lemma getActorById_None (actors : list Actor) (anId : Z) :
  getActorById actors anId = None <-> ~ In anId (map id actors).
Proof.
  induction actors as [|hd tl IH]; simpl; [tauto|].
  destruct (id hd =? anId) eqn:E.
  - apply Z.eqb_eq in E. split; [discriminate | intros H; exfalso; apply H; now left].
  - apply Z.eqb_neq in E. rewrite IH. tauto.
Qed.

Lemma replaceActor_ids (actors : list Actor) (a : Actor) :
  map id (replaceActor actors a) = map id actors.
Proof.
  induction actors as [|hd tl IH]; simpl; [reflexivity|].
  destruct (id hd =? id a) eqn:E; simpl; [|now rewrite IH].
  apply Z.eqb_eq in E. now rewrite E.
Qed.

Lemma getActorById_replaceActor_same (actors : list Actor) (a : Actor) :
  getActorById (replaceActor actors a) (id a) =
  match getActorById actors (id a) with
  | Some _ => Some a
  | None => None
  end.
Proof.
  induction actors as [|hd tl IH]; simpl; [reflexivity|].
  destruct (id hd =? id a) eqn:E; simpl.
  - now rewrite Z.eqb_refl.
  - now rewrite E.
Qed.

Lemma getActorById_replaceActor_other (actors : list Actor) (a : Actor) (anId : Z) :
  anId <> id a -> getActorById (replaceActor actors a) anId = getActorById actors anId.
Proof.
  intros Hne. induction actors as [|hd tl IH]; simpl; [reflexivity|].
  destruct (id hd =? id a) eqn:E; simpl.
  - apply Z.eqb_eq in E.
    destruct (id a =? anId) eqn:E1; [apply Z.eqb_eq in E1; congruence|].
    destruct (id hd =? anId) eqn:E2; [apply Z.eqb_eq in E2; congruence|reflexivity].
  - destruct (id hd =? anId); [reflexivity | assumption].
Qed.

Lemma getActorById_removeActor_other (actors : list Actor) (anId other : Z) :
  other <> anId -> getActorById (removeActor actors anId) other = getActorById actors other.
Proof.
  intros Hne. induction actors as [|hd tl IH]; simpl; [reflexivity|].
  destruct (id hd =? anId) eqn:E; simpl.
  - apply Z.eqb_eq in E.
    destruct (id hd =? other) eqn:E2; [apply Z.eqb_eq in E2; congruence|reflexivity].
  - destruct (id hd =? other); [reflexivity | assumption].
Qed.

Lemma removeActor_incl (actors : list Actor) (anId : Z) (a : Actor) :
  In a (removeActor actors anId) -> In a actors.
Proof.
  induction actors as [|hd tl IH]; simpl; [tauto|].
  destruct (id hd =? anId); simpl; intuition.
Qed.

Lemma removeActor_ids_incl (actors : list Actor) (anId other : Z) :
  In other (map id (removeActor actors anId)) -> In other (map id actors).
Proof.
  rewrite !in_map_iff. intros [a [E Hin]]. exists a. split; [assumption|].
  eapply removeActor_incl; eassumption.
Qed.

(** With unique identifiers, removal leaves no actor under the id. *)
Lemma getActorById_removeActor_same (actors : list Actor) (anId : Z) :
  NoDup (map id actors) -> getActorById (removeActor actors anId) anId = None.
Proof.
  induction actors as [|hd tl IH]; simpl; [reflexivity|].
  intros Hnd. inversion Hnd as [|? ? Hnotin Hnd']; subst.
  destruct (id hd =? anId) eqn:E; simpl.
  - apply Z.eqb_eq in E. subst anId. now apply getActorById_None.
  - rewrite E. now apply IH.
Qed.

Lemma removeActor_NoDup (actors : list Actor) (anId : Z) :
  NoDup (map id actors) -> NoDup (map id (removeActor actors anId)).
Proof.
  induction actors as [|hd tl IH]; simpl; [trivial|].
  intros Hnd. inversion Hnd as [|? ? Hnotin Hnd']; subst.
  destruct (id hd =? anId); simpl; [assumption|].
  constructor; [|now apply IH].
  intros Hin. apply Hnotin. eapply removeActor_ids_incl; eassumption.
Qed.

Lemma replaceActor_Forall (P : Actor -> Prop) (actors : list Actor) (a : Actor) :
  Forall P actors -> P a -> Forall P (replaceActor actors a).
Proof.
  intros Hall Ha. induction Hall as [|hd tl Hhd Htl IH]; simpl; [constructor|].
  destruct (id hd =? id a); constructor; assumption.
Qed.

Lemma removeActor_Forall (P : Actor -> Prop) (actors : list Actor) (anId : Z) :
  Forall P actors -> Forall P (removeActor actors anId).
Proof.
  intros Hall. induction Hall as [|hd tl Hhd Htl IH]; simpl; [constructor|].
  destruct (id hd =? anId); [assumption | constructor; assumption].
Qed.

Lemma getActorsByType_empty (actors : list Actor) (t : ActorType) :
  isEmpty (getActorsByType actors t) = true <-> (forall a, In a actors -> type a <> t).
Proof.
  unfold getActorsByType. induction actors as [|hd tl IH]; simpl.
  - split; [intros _ a [] | reflexivity].
  - destruct (actorTypeEquals (type hd) t) eqn:E.
    + rewrite appendList_app. split.
      * intros H. apply isEmpty_true in H. now destruct (app_cons_not_nil _ _ _ (eq_sym H)).
      * intros H. apply actorTypeEquals_eq in E. exfalso. apply (H hd); [now left | assumption].
    + rewrite IH. split.
      * intros H a [<- | Hin]; [|now apply H].
        intros Heq. apply actorTypeEquals_eq in Heq. congruence.
      * intros H a Hin. apply H. now right.
Qed.

End Registry.

(** ** The phase resolvers *)

Section Resolvers.
Variable aWorld : World.

Lemma applyAttack_world (acc : World * list Actor) (atk : Attack) :
  fst (applyAttack acc atk) = fst acc.
Proof.
  unfold applyAttack. destruct (getActorById (snd acc) (attackId atk)); [|reflexivity].
  now destruct (health a <=? damage atk).
Qed.

Lemma applyHeal_world (acc : World * list Actor) (h : Heal) :
  fst (applyHeal acc h) = fst acc.
Proof.
  unfold applyHeal. destruct (getActorById (snd acc) (healId h)); [|reflexivity].
  now destruct (health a + healAmount h >? maxHealth a).
Qed.

Lemma moveResolver_world : preservesWorld moveResolver.
Proof.
  intros w actors proposals. unfold moveResolver.
  apply (listFoldR_invariant (fun acc : World * list Actor => fst acc = w)); [reflexivity|].
  intros acc [p|] _ Hacc; [|assumption].
  now destruct (isInWorld w (position p)).
Qed.

Lemma attackResolver_world : preservesWorld attackResolver.
Proof.
  intros w actors proposals. unfold attackResolver.
  apply (listFoldR_invariant (fun acc : World * list Actor => fst acc = w)); [reflexivity|].
  intros acc proposal _ Hacc. destruct proposal as [|atk rest]; [assumption|].
  apply (listFoldR_invariant (fun acc : World * list Actor => fst acc = w)); [assumption|].
  intros acc2 a _ H. now rewrite applyAttack_world.
Qed.

Lemma spawnResolver_world : preservesWorld spawnResolver.
Proof.
  intros w actors proposals. unfold spawnResolver.
  apply (listFoldR_invariant (fun acc : World * list Actor => fst acc = w)); [reflexivity|].
  intros acc [p|] _ Hacc; assumption.
Qed.

Lemma healResolver_world : preservesWorld healResolver.
Proof.
  intros w actors proposals. unfold healResolver.
  apply (listFoldR_invariant (fun acc : World * list Actor => fst acc = w)); [reflexivity|].
  intros acc proposal _ Hacc. destruct proposal as [|h rest]; [assumption|].
  apply (listFoldR_invariant (fun acc : World * list Actor => fst acc = w)); [assumption|].
  intros acc2 a _ H. now rewrite applyHeal_world.
Qed.

(** The nested folds of the attack and heal resolvers amount to one fold
    over the pairs of all proposals, taken from the last to the first. *)
Lemma attackResolver_flat (actors : list Actor) (proposals : list AttackProposal) :
  attackResolver aWorld actors proposals =
  fold_left applyAttack (rev (concat proposals)) (aWorld, actors).
Proof.
  rewrite <- listFoldR_fold_left. unfold attackResolver.
  induction proposals as [|proposal rest IH]; simpl; [reflexivity|].
  rewrite listFoldR_app, IH. now destruct proposal.
Qed.

Lemma healResolver_flat (actors : list Actor) (proposals : list HealProposal) :
  healResolver aWorld actors proposals =
  fold_left applyHeal (rev (concat proposals)) (aWorld, actors).
Proof.
  rewrite <- listFoldR_fold_left. unfold healResolver.
  induction proposals as [|proposal rest IH]; simpl; [reflexivity|].
  rewrite listFoldR_app, IH. now destruct proposal.
Qed.

End Resolvers.

(** C9. Each of the four resolvers that [computePhases] produces, in the
    order move, attack, spawn, heal, returns as its world component exactly
    the world it received, whatever the registry and the proposals. *)
Theorem computePhases_preserve_world (world : World) (actors : list Actor) :
  map funcName (computePhases world actors) = ["move"; "attack"; "spawn"; "heal"]
  /\ Forall phasePreservesWorld (computePhases world actors).
Proof.
  split; [reflexivity|].
  unfold computePhases. repeat constructor; simpl.
  - apply moveResolver_world.
  - apply attackResolver_world.
  - apply spawnResolver_world.
  - apply healResolver_world.
Qed.

(** C5. [gameIsOver] answers TOWER when the registry holds no ENEMY and no
    SPAWNER actor, whatever else it holds; failing that, it answers ENEMY
    when the registry holds no GOAL actor, and NONE otherwise. *)
Theorem gameIsOver_spec (aWorld : World) (actors : list Actor) :
  ((forall a, In a actors -> type a <> ENEMY /\ type a <> SPAWNER) ->
   gameIsOver aWorld actors = WinnerTOWER)
  /\ ((exists a, In a actors /\ (type a = ENEMY \/ type a = SPAWNER)) ->
      (forall a, In a actors -> type a <> GOAL) ->
      gameIsOver aWorld actors = WinnerENEMY)
  /\ ((exists a, In a actors /\ (type a = ENEMY \/ type a = SPAWNER)) ->
      (exists a, In a actors /\ type a = GOAL) ->
      gameIsOver aWorld actors = WinnerNONE).
Proof.
  unfold gameIsOver.
  assert (Hlive : (exists a, In a actors /\ (type a = ENEMY \/ type a = SPAWNER)) ->
                  isEmpty (getActorsByType actors ENEMY)
                  && isEmpty (getActorsByType actors SPAWNER) = false).
  { intros [a [Hin Hty]]. apply andb_false_iff.
    destruct Hty as [Hty | Hty]; [left | right];
      (destruct (isEmpty (getActorsByType actors _)) eqn:E; [|reflexivity]);
      exfalso; revert Hty; eapply getActorsByType_empty; eassumption. }
  repeat split.
  - intros Hnone.
    assert (E1 : isEmpty (getActorsByType actors ENEMY) = true)
      by (apply getActorsByType_empty; intros a Hin; now apply Hnone).
    assert (E2 : isEmpty (getActorsByType actors SPAWNER) = true)
      by (apply getActorsByType_empty; intros a Hin; now apply Hnone).
    now rewrite E1, E2.
  - intros Hsome Hnogoal. rewrite (Hlive Hsome).
    assert (E : isEmpty (getActorsByType actors GOAL) = true)
      by now apply getActorsByType_empty.
    now rewrite E.
  - intros Hsome [g [Hin Hty]]. rewrite (Hlive Hsome).
    destruct (isEmpty (getActorsByType actors GOAL)) eqn:E; [|reflexivity].
    exfalso. revert Hty. eapply getActorsByType_empty; eassumption.
Qed.

Lemma gameIsOver_spec_witness :
  gameIsOver boardWorld [linguini; gusteauWithPan; marmite] = WinnerTOWER
  /\ gameIsOver boardWorld [gusteauWithPan; remyWithSpoon] = WinnerENEMY
  /\ gameIsOver boardWorld [linguini; hole] = WinnerNONE.
Proof.
  split; [|split].
  - apply (proj1 (gameIsOver_spec boardWorld [linguini; gusteauWithPan; marmite])).
    intros a [<- | [<- | [<- | []]]]; split; discriminate.
  - apply (proj1 (proj2 (gameIsOver_spec boardWorld [gusteauWithPan; remyWithSpoon]))).
    + exists remyWithSpoon. split; [right; now left | now left].
    + intros a [<- | [<- | []]]; discriminate.
  - apply (proj2 (proj2 (gameIsOver_spec boardWorld [linguini; hole]))).
    + exists hole. split; [right; now left | now right].
    + exists linguini. split; [now left | reflexivity].
Defined.

(** C3. The spawn resolver appends to the registry it received at the start
    of the phase, never to its accumulator: the proposals being folded from
    the last to the first, the result is the start-of-phase registry followed
    by the one actor named by the first naming proposal of the list (the last
    one the fold meets), whatever the later proposals name; with no naming
    proposal the registry is returned as it was. *)
Theorem spawnResolver_keeps_one (aWorld : World) (actors : list Actor)
        (proposals : list SpawnProposal) :
  (Forall (fun proposal => proposal = None) proposals ->
   spawnResolver aWorld actors proposals = (aWorld, actors))
  /\ (forall skipped spawned later,
         proposals = skipped ++ Some spawned :: later ->
         Forall (fun proposal => proposal = None) skipped ->
         spawnResolver aWorld actors proposals = (aWorld, actors ++ [spawned])
         /\ length (snd (spawnResolver aWorld actors proposals)) = S (length actors)).
Proof.
  assert (Hnone : forall l acc,
             Forall (fun proposal : SpawnProposal => proposal = None) l ->
             listFoldR (fun (acc : World * list Actor) (proposal : SpawnProposal) =>
                          match proposal with
                          | Some p => (fst acc, appendList actors p)
                          | None => acc
                          end) acc l = acc).
  { induction l as [|hd tl IH]; intros acc Hall; simpl; [reflexivity|].
    inversion Hall as [|? ? Hhd Htl]; subst. now apply IH. }
  split.
  - intros Hall. unfold spawnResolver. now apply Hnone.
  - intros skipped spawned later -> Hall.
    assert (E : spawnResolver aWorld actors (skipped ++ Some spawned :: later)
                = (aWorld, actors ++ [spawned])).
    { unfold spawnResolver. rewrite listFoldR_app, (Hnone skipped _ Hall). simpl.
      rewrite appendList_app. f_equal.
      exact (spawnResolver_world aWorld actors later). }
    split; [exact E|]. rewrite E. simpl. rewrite length_app. simpl. lia.
Qed.

Lemma spawnResolver_keeps_one_witness :
  (spawnResolver boardWorld [copyNewActor hole 0]
                 [None; Some (copyNewActor remyWithSpoon 1); Some (copyNewActor remyWithSpoon 2)]
   = (boardWorld, [copyNewActor hole 0] ++ [copyNewActor remyWithSpoon 1])
   /\ length (snd (spawnResolver boardWorld [copyNewActor hole 0]
                  [None; Some (copyNewActor remyWithSpoon 1); Some (copyNewActor remyWithSpoon 2)]))
      = 2%nat)
  /\ spawnResolver boardWorld [copyNewActor hole 0] [None; None]
     = (boardWorld, [copyNewActor hole 0]).
Proof.
  split.
  - apply (proj2 (spawnResolver_keeps_one boardWorld [copyNewActor hole 0]
                    [None; Some (copyNewActor remyWithSpoon 1); Some (copyNewActor remyWithSpoon 2)])
                 [None] (copyNewActor remyWithSpoon 1) [Some (copyNewActor remyWithSpoon 2)]).
    + reflexivity.
    + repeat constructor.
  - apply (proj1 (spawnResolver_keeps_one boardWorld [copyNewActor hole 0] [None; None])).
    repeat constructor.
Defined.

(** ** Attack and heal, pair by pair *)

Section AttackHeal.

Lemma setLifePoint_same (a : Actor) : setLifePoint a (health a) = a.
Proof. now destruct a. Qed.


Lemma applyAttack_NoDup (acc : World * list Actor) (atk : Attack) :
  NoDup (map id (snd acc)) -> NoDup (map id (snd (applyAttack acc atk))).
Proof.
  intros Hnd. unfold applyAttack.
  destruct (getActorById (snd acc) (attackId atk)) as [target|]; [|assumption].
  destruct (health target <=? damage atk); simpl.
  - now apply removeActor_NoDup.
  - now rewrite replaceActor_ids.
Qed.

Lemma fold_applyAttack_NoDup (attacks : list Attack) (acc : World * list Actor) :
  NoDup (map id (snd acc)) -> NoDup (map id (snd (fold_left applyAttack attacks acc))).
Proof.
  revert acc. induction attacks as [|atk rest IH]; intros acc Hnd; simpl; [assumption|].
  apply IH. now apply applyAttack_NoDup.
Qed.

(** One attack pair.  Unique identifiers are only needed to know that no
    second actor answers to the identifier of a removed target. *)
Lemma applyAttack_spec (w : World) (registry : list Actor) (atk : Attack) :
  match getActorById registry (attackId atk) with
  | Some target =>
      (health target <= damage atk ->
       snd (applyAttack (w, registry) atk) = removeActor registry (attackId atk)
       /\ (NoDup (map id registry) ->
           getActorById (snd (applyAttack (w, registry) atk)) (attackId atk) = None))
      /\ (damage atk < health target ->
          exists hit,
            getActorById (snd (applyAttack (w, registry) atk)) (attackId atk) = Some hit
            /\ hit = setLifePoint target (health target - damage atk)
            /\ health hit = health target - damage atk)
  | None => applyAttack (w, registry) atk = (w, registry)
  end.
Proof.
  unfold applyAttack. simpl.
  destruct (getActorById registry (attackId atk)) as [target|] eqn:Hget; [|reflexivity].
  destruct (getActorById_Some _ _ Hget) as [_ Hid].
  split; intros Hcmp.
  - apply Z.leb_le in Hcmp. rewrite Hcmp. simpl. rewrite Hid.
    split; [reflexivity | intros Hnd; now apply getActorById_removeActor_same].
  - assert (E : (health target <=? damage atk) = false) by (apply Z.leb_gt; lia).
    rewrite E. simpl.
    exists (setLifePoint target (health target - damage atk)).
    split; [|split; reflexivity].
    pose proof (getActorById_replaceActor_same registry
                  (setLifePoint target (health target - damage atk))) as H.
    simpl in H. rewrite Hid, Hget in H. exact H.
Qed.

Lemma applyAttack_other (acc : World * list Actor) (atk : Attack) (other : Z) :
  other <> attackId atk ->
  getActorById (snd (applyAttack acc atk)) other = getActorById (snd acc) other.
Proof.
  intros Hne. unfold applyAttack.
  destruct (getActorById (snd acc) (attackId atk)) as [target|] eqn:Hget; [|reflexivity].
  destruct (getActorById_Some _ _ Hget) as [_ Hid].
  destruct (health target <=? damage atk); simpl.
  - apply getActorById_removeActor_other. congruence.
  - apply getActorById_replaceActor_other. simpl. congruence.
Qed.

(** One heal pair. *)
Lemma applyHeal_spec (w : World) (registry : list Actor) (h : Heal) :
  match getActorById registry (healId h) with
  | Some target =>
      snd (applyHeal (w, registry) h) =
      replaceActor registry
        (setLifePoint target (Z.min (health target + healAmount h) (maxHealth target)))
      /\ getActorById (snd (applyHeal (w, registry) h)) (healId h) =
         Some (setLifePoint target (Z.min (health target + healAmount h) (maxHealth target)))
  | None => applyHeal (w, registry) h = (w, registry)
  end.
Proof.
  unfold applyHeal. simpl.
  destruct (getActorById registry (healId h)) as [target|] eqn:Hget; [|reflexivity].
  destruct (getActorById_Some _ _ Hget) as [_ Hid].
  assert (Hmin : (if health target + healAmount h >? maxHealth target
                  then maxHealth target else health target + healAmount h)
                 = Z.min (health target + healAmount h) (maxHealth target)).
  { destruct (health target + healAmount h >? maxHealth target) eqn:E.
    - apply Z.gtb_lt in E. lia.
    - rewrite Z.gtb_ltb in E. apply Z.ltb_ge in E. lia. }
  rewrite <- Hmin.
  destruct (health target + healAmount h >? maxHealth target); simpl;
    (split; [reflexivity|]).
  - pose proof (getActorById_replaceActor_same registry
                  (setLifePoint target (maxHealth target))) as H.
    simpl in H. rewrite Hid, Hget in H. exact H.
  - pose proof (getActorById_replaceActor_same registry
                  (setLifePoint target (health target + healAmount h))) as H.
    simpl in H. rewrite Hid, Hget in H. exact H.
Qed.

Lemma applyHeal_other (acc : World * list Actor) (h : Heal) (other : Z) :
  other <> healId h ->
  getActorById (snd (applyHeal acc h)) other = getActorById (snd acc) other.
Proof.
  intros Hne. unfold applyHeal.
  destruct (getActorById (snd acc) (healId h)) as [target|] eqn:Hget; [|reflexivity].
  destruct (getActorById_Some _ _ Hget) as [_ Hid].
  destruct (health target + healAmount h >? maxHealth target); simpl;
    apply getActorById_replaceActor_other; simpl; congruence.
Qed.

Lemma applyAttack_healthInRange (acc : World * list Actor) (atk : Attack) :
  0 <= damage atk ->
  Forall healthInRange (snd acc) -> Forall healthInRange (snd (applyAttack acc atk)).
Proof.
  intros Hdmg Hall. unfold applyAttack.
  destruct (getActorById (snd acc) (attackId atk)) as [target|] eqn:Hget; [|assumption].
  destruct (getActorById_Some _ _ Hget) as [Hin _].
  assert (Ht : healthInRange target) by (rewrite Forall_forall in Hall; now apply Hall).
  destruct (health target <=? damage atk) eqn:E; simpl.
  - now apply removeActor_Forall.
  - apply replaceActor_Forall; [assumption|].
    apply Z.leb_gt in E. unfold healthInRange in *. simpl. lia.
Qed.

Lemma applyHeal_healthInRange (acc : World * list Actor) (h : Heal) :
  0 <= healAmount h ->
  Forall healthInRange (snd acc) -> Forall healthInRange (snd (applyHeal acc h)).
Proof.
  intros Hamount Hall. unfold applyHeal.
  destruct (getActorById (snd acc) (healId h)) as [target|] eqn:Hget; [|assumption].
  destruct (getActorById_Some _ _ Hget) as [Hin _].
  assert (Ht : healthInRange target) by (rewrite Forall_forall in Hall; now apply Hall).
  destruct (health target + healAmount h >? maxHealth target) eqn:E; simpl;
    (apply replaceActor_Forall; [assumption|]); unfold healthInRange in *; simpl.
  - lia.
  - rewrite Z.gtb_ltb in E. apply Z.ltb_ge in E. lia.
Qed.



End AttackHeal.

(** C1. The attack resolver processes the pairs of all proposals one after
    the other (last proposal first, last pair first), each against the
    registry left by the pairs processed before it.  For a pair aimed at a
    target present with health h and dealing damage d: when d >= h the target
    is removed, and, identifiers being unique in the registry, no longer
    found afterwards; when d < h it stays, with health exactly h - d; a pair
    whose target is absent leaves the registry as it was.  Actors with other
    identifiers are never affected. *)
Theorem attackResolver_spec (aWorld : World) (actors : list Actor)
        (proposals : list AttackProposal)
        (processed : list Attack) (atk : Attack) (pending : list Attack) :
  rev (concat proposals) = processed ++ atk :: pending ->
  let before := fold_left applyAttack processed (aWorld, actors) in
  let after := applyAttack before atk in
  attackResolver aWorld actors proposals = fold_left applyAttack pending after
  /\ match getActorById (snd before) (attackId atk) with
     | Some target =>
         (health target <= damage atk ->
          snd after = removeActor (snd before) (attackId atk)
          /\ (NoDup (map id actors) -> getActorById (snd after) (attackId atk) = None))
         /\ (damage atk < health target ->
             exists hit,
               getActorById (snd after) (attackId atk) = Some hit
               /\ hit = setLifePoint target (health target - damage atk)
               /\ health hit = health target - damage atk)
     | None => after = before
     end
  /\ (forall other, other <> attackId atk ->
                    getActorById (snd after) other = getActorById (snd before) other).
Proof.
  intros Horder before after. split; [|split].
  - rewrite attackResolver_flat, Horder, fold_left_app. reflexivity.
  - assert (Hnd : NoDup (map id actors) -> NoDup (map id (snd before)))
      by (intros Hnd; now apply fold_applyAttack_NoDup).
    subst after. destruct before as [w registry].
    pose proof (applyAttack_spec w registry atk) as Hspec. simpl snd in *.
    destruct (getActorById registry (attackId atk)) as [target|]; [|exact Hspec].
    destruct Hspec as [Hkill Hhit]. split; [|exact Hhit].
    intros Hcmp. destruct (Hkill Hcmp) as [Hreg Hgone].
    split; [exact Hreg | intros Hactors; apply Hgone; now apply Hnd].
  - intros other Hne. now apply applyAttack_other.
Qed.

Lemma attackResolver_spec_witness :
  attackResolver boardWorld sampleRegistry
                 [[ {| attackId := 0; damage := 20 |} ];
                  [ {| attackId := 1; damage := 30 |}; {| attackId := 0; damage := 50 |} ]]
  = fold_left applyAttack
              [ {| attackId := 1; damage := 30 |}; {| attackId := 0; damage := 20 |} ]
              (applyAttack (boardWorld, sampleRegistry) {| attackId := 0; damage := 50 |})
  /\ getActorById (snd (applyAttack (boardWorld, sampleRegistry)
                                    {| attackId := 0; damage := 50 |})) 0 = None
  /\ exists hit,
      getActorById
        (snd (applyAttack (applyAttack (boardWorld, sampleRegistry)
                                       {| attackId := 0; damage := 50 |})
                          {| attackId := 1; damage := 30 |})) 1 = Some hit
      /\ health hit = 170.
Proof.
  assert (Hnd : NoDup (map id sampleRegistry)).
  { simpl. repeat constructor; simpl; intuition discriminate. }
  destruct (attackResolver_spec boardWorld sampleRegistry
              [[ {| attackId := 0; damage := 20 |} ];
               [ {| attackId := 1; damage := 30 |}; {| attackId := 0; damage := 50 |} ]]
              [] {| attackId := 0; damage := 50 |}
              [ {| attackId := 1; damage := 30 |}; {| attackId := 0; damage := 20 |} ]
              eq_refl) as [Hfold [Hpair _]].
  destruct (attackResolver_spec boardWorld sampleRegistry
              [[ {| attackId := 0; damage := 20 |} ];
               [ {| attackId := 1; damage := 30 |}; {| attackId := 0; damage := 50 |} ]]
              [ {| attackId := 0; damage := 50 |} ] {| attackId := 1; damage := 30 |}
              [ {| attackId := 0; damage := 20 |} ]
              eq_refl) as [_ [Hpair' _]].
  split; [exact Hfold | split].
  - simpl in Hpair. destruct Hpair as [Hkill _].
    destruct Hkill as [_ Hgone]; [lia | exact (Hgone Hnd)].
  - simpl in Hpair'. destruct Hpair' as [_ Hhit].
    destruct Hhit as [hit [Hfound [_ Hhealth]]]; [lia|].
    exists hit. split; [exact Hfound | exact Hhealth].
Defined.



(** C8. When every actor of the registry has 0 < health <= maxHealth and
    every damage, respectively heal amount, is non-negative, every actor of
    the registry returned by the attack resolver, respectively the heal
    resolver, still has 0 < health <= maxHealth: a lethal attack removes its
    target instead of leaving it with a non-positive health. *)
Theorem health_invariant_preserved (aWorld : World) (actors : list Actor) :
  Forall healthInRange actors ->
  (forall proposals : list AttackProposal,
      Forall (Forall (fun atk => 0 <= damage atk)) proposals ->
      Forall healthInRange (snd (attackResolver aWorld actors proposals)))
  /\ (forall proposals : list HealProposal,
         Forall (Forall (fun h => 0 <= healAmount h)) proposals ->
         Forall healthInRange (snd (healResolver aWorld actors proposals))).
Proof.
  intros Hall. split; intros proposals Hamounts; rewrite Forall_forall in Hamounts.
  - unfold attackResolver.
    apply (listFoldR_invariant (fun acc : World * list Actor => Forall healthInRange (snd acc)));
      [assumption|].
    intros acc proposal Hin Hacc. specialize (Hamounts proposal Hin).
    destruct proposal as [|atk rest]; [assumption|].
    apply (listFoldR_invariant (fun acc : World * list Actor => Forall healthInRange (snd acc)));
      [assumption|].
    intros acc2 a Ha Hacc2. rewrite Forall_forall in Hamounts.
    apply applyAttack_healthInRange; [now apply Hamounts | assumption].
  - unfold healResolver.
    apply (listFoldR_invariant (fun acc : World * list Actor => Forall healthInRange (snd acc)));
      [assumption|].
    intros acc proposal Hin Hacc. specialize (Hamounts proposal Hin).
    destruct proposal as [|h rest]; [assumption|].
    apply (listFoldR_invariant (fun acc : World * list Actor => Forall healthInRange (snd acc)));
      [assumption|].
    intros acc2 a Ha Hacc2. rewrite Forall_forall in Hamounts.
    apply applyHeal_healthInRange; [now apply Hamounts | assumption].
Qed.

Lemma health_invariant_preserved_witness :
  Forall healthInRange
         (snd (attackResolver boardWorld sampleRegistry
                 [[ {| attackId := 0; damage := 50 |} ]; [ {| attackId := 1; damage := 30 |} ]]))
  /\ Forall healthInRange
            (snd (healResolver boardWorld sampleRegistry
                    [[ {| healId := 1; healAmount := 10 |} ]; []])).
Proof.
  assert (Hall : Forall healthInRange sampleRegistry).
  { repeat constructor; simpl; lia. }
  destruct (health_invariant_preserved boardWorld Hall) as [Hattack Hheal].
  split.
  - apply Hattack. repeat constructor; simpl; lia.
  - apply Hheal. repeat constructor; simpl; lia.
Defined.

(** ** Move *)

Section Move.
Variable aWorld : World.
Variable actors : list Actor.

Lemma moveResolver_cons (proposal : MoveProposal) (rest : list MoveProposal) :
  moveResolver aWorld actors (proposal :: rest) =
  match proposal with
  | Some p =>
      if isInWorld aWorld (position p)
      then (fst (moveResolver aWorld actors rest),
            replaceActor (snd (moveResolver aWorld actors rest)) p)
      else moveResolver aWorld actors rest
  | None => moveResolver aWorld actors rest
  end.
Proof. reflexivity. Qed.

(** Every entry keeps its identifier and its place in the registry. *)
Lemma moveResolver_ids (proposals : list MoveProposal) :
  map id (snd (moveResolver aWorld actors proposals)) = map id actors.
Proof.
  induction proposals as [|[p|] rest IH]; [reflexivity| |exact IH].
  rewrite moveResolver_cons. destruct (isInWorld aWorld (position p)); [|exact IH].
  simpl. now rewrite replaceActor_ids.
Qed.

Lemma lookup_presence (l1 l2 : list Actor) (anId : Z) (p : Actor) :
  map id l1 = map id l2 ->
  match getActorById l1 anId with Some _ => Some p | None => None end =
  match getActorById l2 anId with Some _ => Some p | None => None end.
Proof.
  intros Hids.
  destruct (getActorById l1 anId) eqn:E1, (getActorById l2 anId) eqn:E2; try reflexivity; exfalso.
  - apply getActorById_None in E2. rewrite <- Hids in E2.
    apply getActorById_None in E2. congruence.
  - apply getActorById_None in E1. rewrite Hids in E1.
    apply getActorById_None in E1. congruence.
Qed.

(** What a lookup finds after the phase, for any list of proposals. *)
Lemma moveResolver_lookup (proposals : list MoveProposal) (anId : Z) :
  getActorById (snd (moveResolver aWorld actors proposals)) anId =
  match winningMove aWorld proposals anId with
  | Some p => match getActorById actors anId with Some _ => Some p | None => None end
  | None => getActorById actors anId
  end.
Proof.
  induction proposals as [|[p|] rest IH]; [reflexivity| |exact IH].
  rewrite moveResolver_cons. simpl winningMove.
  destruct (isInWorld aWorld (position p)); [|now rewrite andb_false_r].
  rewrite andb_true_r. simpl snd.
  destruct (id p =? anId) eqn:E.
  - apply Z.eqb_eq in E. subst anId.
    rewrite getActorById_replaceActor_same.
    apply lookup_presence, moveResolver_ids.
  - apply Z.eqb_neq in E.
    rewrite getActorById_replaceActor_other by congruence. exact IH.
Qed.

Lemma winningMove_absent (proposals : list MoveProposal) (anId : Z) :
  ~ In anId (proposedIds proposals) -> winningMove aWorld proposals anId = None.
Proof.
  induction proposals as [|[p|] rest IH]; simpl; intros Hnotin; [reflexivity| |now apply IH].
  destruct (id p =? anId) eqn:E.
  - apply Z.eqb_eq in E. exfalso. apply Hnotin. now left.
  - simpl. apply IH. intros Hin. apply Hnotin. now right.
Qed.

Lemma proposedIds_In (proposals : list MoveProposal) (p : Actor) :
  In (Some p) proposals -> In (id p) (proposedIds proposals).
Proof.
  intros Hin. unfold proposedIds. apply in_flat_map.
  exists (Some p). split; [assumption | now left].
Qed.

(** With one proposal at most per identifier, a proposal wins exactly
    when it is inside the world. *)
Lemma winningMove_unique (proposals : list MoveProposal) (p : Actor) :
  NoDup (proposedIds proposals) -> In (Some p) proposals ->
  winningMove aWorld proposals (id p) =
  if isInWorld aWorld (position p) then Some p else None.
Proof.
  induction proposals as [|[q|] rest IH]; simpl; intros Hnd Hin; [contradiction| |].
  - inversion Hnd as [|? ? Hnotin Hnd']; subst.
    destruct Hin as [[= ->] | Hin].
    + rewrite Z.eqb_refl. simpl.
      destruct (isInWorld aWorld (position p)); [reflexivity|].
      now apply winningMove_absent.
    + assert (E : (id q =? id p) = false).
      { apply Z.eqb_neq. intros Heq. apply Hnotin. rewrite Heq.
        now apply proposedIds_In. }
      rewrite E. simpl. now apply IH.
  - destruct Hin as [Hin | Hin]; [discriminate | now apply IH].
Qed.

End Move.

(** C6. The move resolver keeps every entry at its place, and, the
    identifiers of the proposals being pairwise distinct (each actor proposes
    at most once, under its own identifier): a proposal whose position has
    both coordinates in the inclusive range [0, size] replaces the actor of
    its identifier by the proposed actor; a proposal whose position is
    outside is dropped, and the actor of that identifier is after the phase
    what it was before.  An identifier no proposal names keeps its entry. *)
Theorem moveResolver_spec (aWorld : World) (actors : list Actor)
        (proposals : list MoveProposal) :
  map id (snd (moveResolver aWorld actors proposals)) = map id actors
  /\ (NoDup (proposedIds proposals) ->
      forall p, In (Some p) proposals ->
        ((0 <= x (position p) <= x (size aWorld)
          /\ 0 <= y (position p) <= y (size aWorld)) ->
         getActorById (snd (moveResolver aWorld actors proposals)) (id p) =
         match getActorById actors (id p) with Some _ => Some p | None => None end)
        /\ (~ (0 <= x (position p) <= x (size aWorld)
               /\ 0 <= y (position p) <= y (size aWorld)) ->
            getActorById (snd (moveResolver aWorld actors proposals)) (id p) =
            getActorById actors (id p)))
  /\ (forall anId, ~ In anId (proposedIds proposals) ->
         getActorById (snd (moveResolver aWorld actors proposals)) anId =
         getActorById actors anId).
Proof.
  split; [apply moveResolver_ids | split].
  - intros Hnd p Hin.
    pose proof (moveResolver_lookup aWorld actors proposals (id p)) as Hlook.
    rewrite (winningMove_unique aWorld proposals p Hnd Hin) in Hlook.
    split; intros Hbounds.
    + apply isInWorld_bounds in Hbounds. now rewrite Hbounds in Hlook.
    + destruct (isInWorld aWorld (position p)) eqn:E; [|exact Hlook].
      apply isInWorld_bounds in E. contradiction.
  - intros anId Hnotin. rewrite moveResolver_lookup.
    now rewrite (winningMove_absent aWorld proposals anId Hnotin).
Qed.

Lemma moveResolver_spec_witness :
  getActorById
    (snd (moveResolver boardWorld sampleRegistry
            [ Some (setActorPosition (copyNewActor linguini 0) (createPosition 11 5));
              Some (setActorPosition (copyNewActor remyWithSpoon 1) (createPosition 1 5));
              None ])) 1
  = Some (setActorPosition (copyNewActor remyWithSpoon 1) (createPosition 1 5))
  /\ getActorById
       (snd (moveResolver boardWorld sampleRegistry
               [ Some (setActorPosition (copyNewActor linguini 0) (createPosition 11 5));
                 Some (setActorPosition (copyNewActor remyWithSpoon 1) (createPosition 1 5));
                 None ])) 0
     = getActorById sampleRegistry 0
  /\ getActorById
       (snd (moveResolver boardWorld sampleRegistry
               [ Some (setActorPosition (copyNewActor linguini 0) (createPosition 11 5));
                 Some (setActorPosition (copyNewActor remyWithSpoon 1) (createPosition 1 5));
                 None ])) 2
     = getActorById sampleRegistry 2.
Proof.
  assert (Hnd : NoDup (proposedIds
            [ Some (setActorPosition (copyNewActor linguini 0) (createPosition 11 5));
              Some (setActorPosition (copyNewActor remyWithSpoon 1) (createPosition 1 5));
              None ])).
  { simpl. repeat constructor; simpl; intuition discriminate. }
  destruct (moveResolver_spec boardWorld sampleRegistry
              [ Some (setActorPosition (copyNewActor linguini 0) (createPosition 11 5));
                Some (setActorPosition (copyNewActor remyWithSpoon 1) (createPosition 1 5));
                None ]) as [_ [Hprop Hrest]].
  split; [|split].
  - apply (proj1 (Hprop Hnd (setActorPosition (copyNewActor remyWithSpoon 1) (createPosition 1 5))
                        (or_intror (or_introl eq_refl)))).
    simpl. lia.
  - apply (proj2 (Hprop Hnd (setActorPosition (copyNewActor linguini 0) (createPosition 11 5))
                        (or_introl eq_refl))).
    simpl. lia.
  - apply Hrest. simpl. intuition discriminate.
Defined.

(** C6, without the condition on the identifiers.  Two proposals that carry
    the same identifier are folded one after the other onto the same entry,
    and the first of the list, folded last, prevails.  A proposal inside the
    world is then not the actor found after the phase, and a proposal outside
    the world does not leave the entry as it was before the phase. *)
Lemma moveResolver_shared_id_counterexample :
  (In (Some (setActorPosition (copyNewActor remyWithSpoon 1) (createPosition 2 5)))
      [ Some (setActorPosition (copyNewActor remyWithSpoon 1) (createPosition 1 5));
        Some (setActorPosition (copyNewActor remyWithSpoon 1) (createPosition 2 5)) ]
   /\ isInWorld boardWorld (createPosition 2 5) = true
   /\ getActorById
        (snd (moveResolver boardWorld sampleRegistry
                [ Some (setActorPosition (copyNewActor remyWithSpoon 1) (createPosition 1 5));
                  Some (setActorPosition (copyNewActor remyWithSpoon 1) (createPosition 2 5)) ]))
        1
      <> Some (setActorPosition (copyNewActor remyWithSpoon 1) (createPosition 2 5)))
  /\ (In (Some (setActorPosition (copyNewActor remyWithSpoon 1) (createPosition 11 5)))
         [ Some (setActorPosition (copyNewActor remyWithSpoon 1) (createPosition 1 5));
           Some (setActorPosition (copyNewActor remyWithSpoon 1) (createPosition 11 5)) ]
      /\ isInWorld boardWorld (createPosition 11 5) = false
      /\ getActorById
           (snd (moveResolver boardWorld sampleRegistry
                   [ Some (setActorPosition (copyNewActor remyWithSpoon 1) (createPosition 1 5));
                     Some (setActorPosition (copyNewActor remyWithSpoon 1) (createPosition 11 5)) ]))
           1
         <> getActorById sampleRegistry 1).
Proof.
  split; (split; [right; left; reflexivity|]); (split; [reflexivity|]);
    vm_compute; intros H; discriminate H.
Qed.

(** ** Vertex lookup *)

Section VertexLookup.

Lemma getVertexByPos_Ok (vertexes : list Vertex) (p : Position) (v : Vertex) :
  VertexTs.getVertexByPos vertexes p = Ok v -> In v vertexes /\ pos v = p.
Proof.
  induction vertexes as [|hd tl IH]; simpl; [discriminate|].
  destruct (positionEquals (pos hd) p) eqn:E.
  - intros [= <-]. split; [now left | now apply positionEquals_eq].
  - intros H. destruct (IH H). split; [now right | assumption].
Qed.

Lemma getVertexByPos_Throw (vertexes : list Vertex) (p : Position) (e : exn) :
  VertexTs.getVertexByPos vertexes p = Throw e ->
  e = CantFindVertex p /\ forall v, In v vertexes -> pos v <> p.
Proof.
  induction vertexes as [|hd tl IH]; simpl.
  - intros [= <-]. split; [reflexivity | intros v []].
  - destruct (positionEquals (pos hd) p) eqn:E; [discriminate|].
    intros H. destruct (IH H) as [He Hall]. split; [assumption|].
    intros v [<- | Hin]; [now apply positionEquals_neq | now apply Hall].
Qed.

End VertexLookup.

(** C10. When no vertex of the graph has the source position, [pathfinding]
    throws "Can't find vertex" before any search step, whatever the fuel: it
    returns no path, empty or not.  When some vertex has the source position,
    the initial lookup succeeds with a vertex of the graph at that position
    and the search proper starts from it. *)
Theorem pathfinding_source_lookup (src dst : Position) (G : Graph) (actors : list Actor) :
  ((forall v, In v (vertexes G) -> pos v <> src) ->
   forall fuel, pathfinding fuel src dst G actors = Some (Throw (CantFindVertex src)))
  /\ ((exists v, In v (vertexes G) /\ pos v = src) ->
      exists v0,
        VertexTs.getVertexByPos (vertexes G) src = Ok v0
        /\ In v0 (vertexes G) /\ pos v0 = src
        /\ forall fuel, pathfinding fuel src dst G actors =
                        pathfindingRec fuel [makeNode None v0 dst] [] dst G actors).
Proof.
  split.
  - intros Hnone fuel. unfold pathfinding.
    destruct (VertexTs.getVertexByPos (vertexes G) src) as [v|e] eqn:E.
    + destruct (getVertexByPos_Ok _ _ E) as [Hin Hpos]. now destruct (Hnone v Hin).
    + destruct (getVertexByPos_Throw _ _ E) as [-> _]. reflexivity.
  - intros [v [Hin Hpos]]. unfold pathfinding.
    destruct (VertexTs.getVertexByPos (vertexes G) src) as [v0|e] eqn:E.
    + destruct (getVertexByPos_Ok _ _ E) as [Hin0 Hpos0].
      exists v0. repeat split; assumption || reflexivity.
    + destruct (getVertexByPos_Throw _ _ E) as [_ Hall]. now destruct (Hall v Hin).
Qed.

Lemma pathfinding_source_lookup_witness :
  pathfinding 5 (createPosition 1 1) (createPosition 0 0)
              (createGraph [createVertex (createPosition 0 0) []] 1) []
  = Some (Throw (CantFindVertex (createPosition 1 1)))
  /\ exists v0,
      VertexTs.getVertexByPos [createVertex (createPosition 0 0) []] (createPosition 0 0) = Ok v0.
Proof.
  split.
  - apply (proj1 (pathfinding_source_lookup (createPosition 1 1) (createPosition 0 0)
                    (createGraph [createVertex (createPosition 0 0) []] 1) [])).
    intros v [<- | []]. simpl. discriminate.
  - destruct (proj2 (pathfinding_source_lookup (createPosition 0 0) (createPosition 0 0)
                       (createGraph [createVertex (createPosition 0 0) []] 1) []))
      as [v0 [Hv0 _]].
    + exists (createVertex (createPosition 0 0) []). split; [now left | reflexivity].
    + exists v0. exact Hv0.
Defined.

(** ** Building the world *)

Section BuildWorld.
Variable size : Position.
Hypothesis size_x : 0 <= x size.
Hypothesis size_y : 0 <= y size.

Lemma position_ext (p q : Position) : x p = x q -> y p = y q -> p = q.
Proof. destruct p, q; simpl; congruence. Qed.

(** From a cell of the grid, [cellsAfter + 1] units of fuel suffice, and
    the list holds one bare vertex for each cell still to visit. *)
Lemma createVertexesRec_cells (k : nat) :
  forall cur,
    0 <= x cur <= x size -> 0 <= y cur <= y size ->
    cellsAfter size cur = Z.of_nat k ->
    exists vs,
      createVertexesRec (S k) cur size = Some vs
      /\ length vs = S k
      /\ NoDup (map pos vs)
      /\ (forall p, In p (map pos vs) <-> fromCell size cur p).
Proof.
  induction k as [|k IH]; intros cur Hx Hy Hcells; unfold cellsAfter in Hcells.
  - assert (Hcur : cur = size) by (apply position_ext; nia).
    subst cur. simpl. rewrite positionEquals_refl. simpl.
    eexists. split; [reflexivity|]. split; [reflexivity|]. split.
    + constructor; [intros [] | constructor].
    + intros p. unfold fromCell. simpl. split.
      * intros [<- | []]; lia.
      * intros H. left. apply position_ext; lia.
  - assert (Hne : positionEquals cur size = false).
    { apply positionEquals_neq. intros ->. lia. }
    assert (Hnext : 0 <= x (nextPos cur size) <= x size
                    /\ 0 <= y (nextPos cur size) <= y size
                    /\ cellsAfter size (nextPos cur size) = Z.of_nat k
                    /\ (forall p, fromCell size cur p <->
                                  (fromCell size (nextPos cur size) p \/ p = cur))
                    /\ ~ fromCell size (nextPos cur size) cur).
    { unfold nextPos, cellsAfter, fromCell.
      destruct (x cur >=? x size) eqn:E; simpl;
        rewrite Z.geb_leb in E; [apply Z.leb_le in E | apply Z.leb_gt in E].
      - assert (y cur < y size) by nia.
        split; [lia|]. split; [lia|]. split; [nia|]. split; [|lia].
        intros p. split.
        + intros [H1 [H2 H3]].
          destruct (Z.eq_dec (y p) (y cur)) as [Hy'|Hy'];
            [right; apply position_ext; lia | left; lia].
        + intros [[H1 [H2 H3]] | ->]; lia.
      - split; [lia|]. split; [lia|]. split; [nia|]. split; [|lia].
        intros p. split.
        + intros [H1 [H2 H3]].
          destruct (Z.eq_dec (y p) (y cur)) as [Hy'|Hy'];
            [destruct (Z.eq_dec (x p) (x cur));
             [right; apply position_ext; lia | left; lia]
            | left; lia].
        + intros [[H1 [H2 H3]] | ->]; lia. }
    destruct Hnext as [Hx' [Hy' [Hcells' [Hsplit Hfresh]]]].
    destruct (IH _ Hx' Hy' Hcells') as [vs [Hrun [Hlen [Hnd Hin]]]].
    exists (appendList vs (createVertex cur [])).
    change (createVertexesRec (S (S k)) cur size)
      with (if positionEquals cur size
            then Some (appendList [] (createVertex cur []))
            else match createVertexesRec (S k) (nextPos cur size) size with
                 | None => None
                 | Some rest => Some (appendList rest (createVertex cur []))
                 end).
    rewrite Hne, Hrun. rewrite appendList_app, map_app. simpl.
    split; [reflexivity|]. split; [rewrite length_app; simpl; lia|]. split.
    + apply NoDup_app; [assumption | repeat constructor; intros [] |].
      intros p Hp [<- | []]. apply Hfresh. now apply Hin.
    + intros p. rewrite in_app_iff, Hin, Hsplit. simpl. intuition.
Qed.

Lemma addEdges_pos (vertexes : list Vertex) (v0 : Vertex) :
  pos (addEdges vertexes size v0) = pos v0.
Proof.
  unfold addEdges.
  repeat match goal with
         | |- context [if ?c then _ else _] => destruct c; simpl
         end; reflexivity.
Qed.

(** Adding the edges reverses the list and keeps every position. *)
Lemma addEdgesToGraphRec_pos (vertexes cursor : list Vertex) :
  map pos (addEdgesToGraphRec vertexes size cursor) = rev (map pos cursor).
Proof.
  induction cursor as [|hd tl IH]; simpl; [reflexivity|].
  now rewrite appendList_app, map_app, IH; simpl; rewrite addEdges_pos.
Qed.

(** The world of a non-negative size: its vertex list holds exactly one
    vertex per cell of the rectangle, that is (x+1)(y+1) of them, while the
    stored count is x * y. *)
Lemma buildWorld_grid :
  exists world,
    buildWorld (Z.to_nat ((x size + 1) * (y size + 1))) size = Some world
    /\ WorldTs.size world = size
    /\ NoDup (map pos (vertexes (graph world)))
    /\ (forall p, In p (map pos (vertexes (graph world)))
                  <-> (0 <= x p <= x size /\ 0 <= y p <= y size))
    /\ Z.of_nat (length (vertexes (graph world))) = (x size + 1) * (y size + 1)
    /\ n (graph world) = x size * y size.
Proof.
  set (k := Z.to_nat ((x size + 1) * (y size + 1) - 1)).
  assert (Hfuel : Z.to_nat ((x size + 1) * (y size + 1)) = S k) by (subst k; nia).
  destruct (createVertexesRec_cells k (createPosition 0 0)) as [vs [Hrun [Hlen [Hnd Hin]]]];
    [simpl; lia | simpl; lia | unfold cellsAfter; simpl; subst k; nia |].
  unfold buildWorld. rewrite Hfuel, Hrun.
  eexists. split; [reflexivity|]. simpl. unfold addEdgesToGraph.
  rewrite addEdgesToGraphRec_pos.
  split; [reflexivity|]. split; [|split; [|split]].
  - now apply NoDup_rev.
  - intros p. rewrite <- in_rev, Hin. unfold fromCell. simpl. lia.
  - rewrite <- (length_map pos), addEdgesToGraphRec_pos, length_rev, length_map, Hlen.
    subst k. nia.
  - reflexivity.
Qed.

End BuildWorld.

(** C4, at the size (2,2). [buildWorld] yields nine vertices, one per cell of
    [0,2] x [0,2], but stores the count 2 * 2 = 4 instead of
    (2+1) * (2+1) = 9. *)
Theorem buildWorld_count_2_2 :
  exists world,
    buildWorld 9 (createPosition 2 2) = Some world
    /\ map pos (vertexes (graph world)) =
       [ createPosition 0 0; createPosition 1 0; createPosition 2 0;
         createPosition 0 1; createPosition 1 1; createPosition 2 1;
         createPosition 0 2; createPosition 1 2; createPosition 2 2 ]
    /\ n (graph world) = 4
    /\ n (graph world) <> (2 + 1) * (2 + 1).
Proof.
  eexists. split; [reflexivity|]. split; [reflexivity|]. split; [reflexivity|].
  simpl. discriminate.
Qed.

(** ** Walkability *)

Section Walkability.
Variable actors : list Actor.

Lemma getActorsAtPos_In (p : Position) (a : Actor) :
  In a (getActorsAtPos actors p) <-> In a actors /\ position a = p.
Proof.
  unfold getActorsAtPos. induction actors as [|hd tl IH]; simpl; [tauto|].
  destruct (positionEquals (position hd) p) eqn:E; simpl; rewrite IH.
  - apply positionEquals_eq in E. split.
    + intros [<- | [Hin Hp]]; [split; [now left | assumption] | split; [now right | assumption]].
    + intros [[<- | Hin] Hp]; [now left | right; now split].
  - apply positionEquals_neq in E. split.
    + intros [Hin Hp]. split; [now right | assumption].
    + intros [[<- | Hin] Hp]; [contradiction | now split].
Qed.

Lemma blocking_spec (t : ActorType) :
  actorTypeEquals t ENEMY || actorTypeEquals t GOAL = false <-> blocking t.
Proof.
  unfold blocking. destruct t; simpl; split; intros H;
    try reflexivity; try discriminate; try tauto;
    destruct H as [H | [H | [H | H]]]; discriminate.
Qed.

(** A cell is closed to enemies exactly when a TOWER, WALL, SPAWNER or
    UNKNOWN actor stands on it. *)
Lemma isWalkableByEnemy_false (p : Position) :
  isWalkableByEnemy actors p = false <->
  exists a, In a actors /\ position a = p /\ blocking (type a).
Proof.
  unfold isWalkableByEnemy.
  transitivity (exists a, In a (getActorsAtPos actors p) /\ blocking (type a)).
  - induction (getActorsAtPos actors p) as [|hd tl IH]; simpl.
    + split; [discriminate | intros [a [[] _]]].
    + destruct (actorTypeEquals (type hd) ENEMY || actorTypeEquals (type hd) GOAL) eqn:E.
      * rewrite IH. split.
        -- intros [a [Hin Hb]]. exists a. split; [now right | assumption].
        -- intros [a [[<- | Hin] Hb]]; [|exists a; now split].
           apply blocking_spec in Hb. congruence.
      * split; [|reflexivity]. intros _. exists hd. split; [now left|].
        now apply blocking_spec.
  - split; intros [a H]; exists a.
    + destruct H as [Hin Hb]. apply getActorsAtPos_In in Hin. tauto.
    + destruct H as [Hin [Hp Hb]]. split; [apply getActorsAtPos_In; tauto | assumption].
Qed.

End Walkability.

(** ** The A* search *)

Section Search.
Variables (src dst : Position) (G : Graph) (actors : list Actor).


Lemma Node_parent_ind (P : Node -> Prop) :
  (forall v d s, P (mkNode v None d s)) ->
  (forall v p d s, P p -> P (mkNode v (Some p) d s)) ->
  forall node, P node.
Proof.
  intros Hroot Hstep. fix IH 1. intros [v [p|] d s].
  - apply Hstep. apply IH.
  - apply Hroot.
Qed.

Lemma reconstructPath_passable (node : Node) :
  reachedOnFoot src actors node -> Forall (passable src actors) (reconstructPath node).
Proof.
  induction node as [v d s | v p d s IH] using Node_parent_ind; simpl.
  - intros Hroot. constructor; [now left | constructor].
  - intros [Hwalk Hparent]. rewrite appendList_app. apply Forall_app. split.
    + now apply IH.
    + constructor; [now right | constructor].
Qed.

Lemma extractClosestNode_In (nodes : list Node) (current : Node) :
  extractClosestNode nodes = Ok current -> In current nodes.
Proof.
  unfold extractClosestNode. destruct nodes as [|hd tl]; [discriminate|].
  remember (hd :: tl) as nodes eqn:Hnodes. intros H. injection H as <-.
  apply (listFoldR_invariant (fun acc => In acc nodes)); [subst nodes; now left|].
  intros acc node Hin Hacc. now destruct (PrimFloat.ltb (score node) (score acc)).
Qed.

Lemma removeNodeFromList_Forall (P : Node -> Prop) (nodes : list Node) (node : Node) :
  Forall P nodes -> Forall P (removeNodeFromList nodes node).
Proof.
  intros Hall. induction Hall as [|hd tl Hhd Htl IH]; simpl; [constructor|].
  destruct (positionEquals (pos (nvertex hd)) (pos (nvertex node)));
    [assumption | now constructor].
Qed.

Lemma updateNodeInList_Forall (P : Node -> Prop) (nodes updated : list Node) (node : Node) :
  Forall P nodes -> P node -> updateNodeInList nodes node = Ok updated -> Forall P updated.
Proof.
  intros Hall Hnode. revert updated.
  induction Hall as [|hd tl Hhd Htl IH]; simpl; intros updated; [discriminate|].
  destruct (positionEquals (pos (nvertex hd)) (pos (nvertex node))).
  - destruct (distance node <? distance hd); intros [= <-]; now constructor.
  - destruct (updateNodeInList tl node) as [rest|e]; simpl; [|discriminate].
    intros [= <-]. constructor; [assumption | now apply IH].
Qed.

(** Visiting an edge only ever opens a walkable neighbour. *)
Lemma visitEdge_open (current : Node) (openList closedList : list Node) (edge : Edge)
      (openList' closedList' : list Node) :
  reachedOnFoot src actors current -> Forall (reachedOnFoot src actors) openList ->
  visitEdge current dst G actors (openList, closedList) edge = Ok (openList', closedList') ->
  Forall (reachedOnFoot src actors) openList'.
Proof.
  intros Hcur Hopen. unfold visitEdge.
  destruct (VertexTs.getVertexByPos (vertexes G) (pos (vertex edge))) as [v|e]; simpl;
    [|discriminate].
  destruct (isNodeInList closedList _); [intros [= <- <-]; assumption|].
  destruct (isWalkableByEnemy actors (pos v)) eqn:Hwalk; simpl;
    [|intros [= <- <-]; assumption].
  assert (Hnew : reachedOnFoot src actors (makeNode (Some current) v dst)) by (split; assumption).
  destruct (isNodeInList openList _); simpl.
  - destruct (updateNodeInList openList _) as [updated|e] eqn:Hup; simpl; [|discriminate].
    intros [= <- <-]. eapply updateNodeInList_Forall; eassumption.
  - intros [= <- <-]. rewrite appendList_app. apply Forall_app. split; [assumption|].
    constructor; [assumption | constructor].
Qed.

Lemma visitEdges_open (current : Node) (edges : list Edge)
      (openList closedList openList' closedList' : list Node) :
  reachedOnFoot src actors current -> Forall (reachedOnFoot src actors) openList ->
  listFoldR (fun acc edge => lists <- acc ;; visitEdge current dst G actors lists edge)
            (Ok (openList, closedList)) edges = Ok (openList', closedList') ->
  Forall (reachedOnFoot src actors) openList'.
Proof.
  intros Hcur Hopen. revert openList' closedList'.
  induction edges as [|edge rest IH]; simpl; intros openList' closedList'.
  - intros [= <- <-]. assumption.
  - destruct (listFoldR _ _ rest) as [[open1 closed1]|e]; simpl; [|discriminate].
    intros Hvisit. eapply visitEdge_open; [exact Hcur | | exact Hvisit].
    eapply IH. reflexivity.
Qed.

Lemma pathfindingRec_passable (fuel : nat) :
  forall openList closedList path,
    Forall (reachedOnFoot src actors) openList ->
    pathfindingRec fuel openList closedList dst G actors = Some (Ok path) ->
    Forall (passable src actors) path.
Proof.
  induction fuel as [|fuel IH]; intros openList closedList path Hopen; simpl; [discriminate|].
  destruct (isEmpty openList); [intros [= <-]; constructor|].
  destruct (extractClosestNode openList) as [current|e] eqn:Hext; [|discriminate].
  assert (Hcur : reachedOnFoot src actors current).
  { rewrite Forall_forall in Hopen. apply Hopen. now apply extractClosestNode_In. }
  destruct (positionEquals (pos (nvertex current)) dst).
  - intros [= <-]. now apply reconstructPath_passable.
  - destruct (listFoldR _ _ (adj (nvertex current))) as [[open2 closed2]|e] eqn:Hfold;
      [|discriminate].
    apply IH. eapply visitEdges_open; [exact Hcur | | exact Hfold].
    now apply removeNodeFromList_Forall.
Qed.

Lemma pathfinding_passable (fuel : nat) (path : list Vertex) :
  pathfinding fuel src dst G actors = Some (Ok path) -> Forall (passable src actors) path.
Proof.
  unfold pathfinding.
  destruct (VertexTs.getVertexByPos (vertexes G) src) as [v0|e] eqn:Hsrc; [|discriminate].
  destruct (getVertexByPos_Ok _ _ Hsrc) as [_ Hpos].
  apply pathfindingRec_passable. constructor; [exact Hpos | constructor].
Qed.

End Search.

(** More fuel never changes a result already obtained. *)
Lemma createVertexesRec_fuel (fuel : nat) :
  forall extra cur size vs,
    createVertexesRec fuel cur size = Some vs ->
    createVertexesRec (fuel + extra) cur size = Some vs.
Proof.
  induction fuel as [|fuel IH]; intros extra cur size vs; simpl; [discriminate|].
  destruct (positionEquals cur size); [trivial|].
  destruct (createVertexesRec fuel (nextPos cur size) size) as [rest|] eqn:E; [|discriminate].
  now rewrite (IH extra _ _ _ E).
Qed.

Lemma buildWorld_deterministic (fuel1 fuel2 : nat) (size : Position) (w1 w2 : World) :
  buildWorld fuel1 size = Some w1 -> buildWorld fuel2 size = Some w2 -> w1 = w2.
Proof.
  unfold buildWorld.
  destruct (createVertexesRec fuel1 (createPosition 0 0) size) as [vs1|] eqn:E1; [|discriminate].
  destruct (createVertexesRec fuel2 (createPosition 0 0) size) as [vs2|] eqn:E2; [|discriminate].
  intros [= <-] [= <-].
  assert (Hvs : vs1 = vs2).
  { destruct (Nat.le_ge_cases fuel1 fuel2) as [Hle | Hle].
    - apply (createVertexesRec_fuel _ (fuel2 - fuel1)) in E1.
      replace (fuel1 + (fuel2 - fuel1))%nat with fuel2 in E1 by lia. congruence.
    - apply (createVertexesRec_fuel _ (fuel1 - fuel2)) in E2.
      replace (fuel2 + (fuel1 - fuel2))%nat with fuel1 in E2 by lia. congruence. }
  now subst.
Qed.

(** C2. Whenever [pathfinding] returns a path, every vertex of the path
    that is not on the source cell is on a cell walkable by enemies: no
    actor of type TOWER, WALL, SPAWNER or UNKNOWN stands on it.  In
    particular, in the world of size (2,2) with one WALL actor at (1,0), the
    search from (0,0) to (2,0) returns the detour through (0,1), (1,1) and
    (2,1), and no path it returns holds the vertex at (1,0). *)
Theorem pathfinding_avoids_blocked_cells :
  (forall fuel src dst G actors path,
      pathfinding fuel src dst G actors = Some (Ok path) ->
      forall v, In v path -> pos v <> src ->
        isWalkableByEnemy actors (pos v) = true
        /\ forall a, In a actors -> position a = pos v -> ~ blocking (type a))
  /\ (forall fuelW world wall,
         buildWorld fuelW (createPosition 2 2) = Some world ->
         type wall = WALL -> position wall = createPosition 1 0 ->
         (forall fuel path,
             pathfinding fuel (createPosition 0 0) (createPosition 2 0) (graph world) [wall]
             = Some (Ok path) ->
             ~ In (createPosition 1 0) (map pos path))
         /\ exists path,
             pathfinding 5 (createPosition 0 0) (createPosition 2 0) (graph world) [wall]
             = Some (Ok path)
             /\ map pos path = [ createPosition 0 0; createPosition 0 1; createPosition 1 1;
                                 createPosition 2 1; createPosition 2 0 ]).
Proof.
  assert (Hgeneral : forall fuel src dst G actors path,
             pathfinding fuel src dst G actors = Some (Ok path) ->
             forall v, In v path -> pos v <> src ->
                       isWalkableByEnemy actors (pos v) = true
                       /\ forall a, In a actors -> position a = pos v -> ~ blocking (type a)).
  { intros fuel src dst G actors path Hrun v Hin Hsrc.
    pose proof (pathfinding_passable _ _ _ _ _ Hrun) as Hall.
    rewrite Forall_forall in Hall. destruct (Hall v Hin) as [Heq | Hwalk]; [contradiction|].
    split; [assumption|]. intros a Ha Hpos Hblock.
    assert (Hclosed : isWalkableByEnemy actors (pos v) = false).
    { apply isWalkableByEnemy_false. exists a. auto. }
    congruence. }
  split; [exact Hgeneral|].
  intros fuelW world wall Hworld Htype Hpos. split.
  - intros fuel path Hrun Hin. apply in_map_iff in Hin. destruct Hin as [v [Hv Hin]].
    destruct (Hgeneral _ _ _ _ _ _ Hrun v Hin) as [_ Hfree].
    + rewrite Hv. discriminate.
    + apply (Hfree wall); [now left | congruence |].
      rewrite Htype. right. now left.
  - assert (Hworld9 : exists w9, buildWorld 9 (createPosition 2 2) = Some w9)
      by (eexists; reflexivity).
    destruct Hworld9 as [w9 Hw9].
    rewrite (@buildWorld_deterministic _ _ _ _ _ Hworld Hw9).
    injection Hw9 as <-.
    destruct wall as [wid wpos wtype wname whealth wmax wactions]. simpl in Htype, Hpos.
    subst wpos wtype. eexists. split; vm_compute; reflexivity.
Qed.

Lemma pathfinding_avoids_blocked_cells_witness :
  exists path,
    pathfinding 5 (createPosition 0 0) (createPosition 2 0)
                (createGraph
                   (addEdgesToGraph
                      [ createVertex (createPosition 2 2) []; createVertex (createPosition 1 2) [];
                        createVertex (createPosition 0 2) []; createVertex (createPosition 2 1) [];
                        createVertex (createPosition 1 1) []; createVertex (createPosition 0 1) [];
                        createVertex (createPosition 2 0) []; createVertex (createPosition 1 0) [];
                        createVertex (createPosition 0 0) [] ]
                      (createPosition 2 2)) 4)
                [setActorPosition (copyNewActor marmite 0) (createPosition 1 0)]
    = Some (Ok path)
    /\ ~ In (createPosition 1 0) (map pos path)
    /\ exists v, In v path /\ pos v = createPosition 1 1
                 /\ isWalkableByEnemy
                      [setActorPosition (copyNewActor marmite 0) (createPosition 1 0)]
                      (pos v) = true.
Proof.
  destruct (proj2 pathfinding_avoids_blocked_cells 9%nat
                  {| graph := createGraph
                     (addEdgesToGraph
                        [ createVertex (createPosition 2 2) []; createVertex (createPosition 1 2) [];
                          createVertex (createPosition 0 2) []; createVertex (createPosition 2 1) [];
                          createVertex (createPosition 1 1) []; createVertex (createPosition 0 1) [];
                          createVertex (createPosition 2 0) []; createVertex (createPosition 1 0) [];
                          createVertex (createPosition 0 0) [] ]
                        (createPosition 2 2)) 4;
                     size := createPosition 2 2 |}
                  (setActorPosition (copyNewActor marmite 0) (createPosition 1 0))
                  eq_refl eq_refl eq_refl) as [Hnever [path [Hrun Hcells]]].
  exists path. split; [exact Hrun|]. split; [exact (Hnever _ _ Hrun)|].
  assert (Hmid : In (createPosition 1 1) (map pos path))
    by (rewrite Hcells; simpl; tauto).
  apply in_map_iff in Hmid. destruct Hmid as [v [Hpos Hin]].
  exists v. split; [exact Hin|]. split; [exact Hpos|].
  apply (proj1 pathfinding_avoids_blocked_cells _ _ _ _ _ _ Hrun v Hin).
  rewrite Hpos. discriminate.
Defined.

(* ================================================================== *)
(** * Further properties of the list library *)

Section ListLibrary.
Variable T : Type.

Lemma copyList_id (l : list T) : copyList l = l.
Proof. induction l as [|hd tl IH]; simpl; [reflexivity | now rewrite IH]. Qed.

Lemma listLengthINT_length (l : list T) (res : Z) :
  listLengthINT l res = res + Z.of_nat (length l).
Proof.
  revert res. induction l as [|hd tl IH]; intros res; simpl listLengthINT.
  - simpl. lia.
  - rewrite IH. simpl length. lia.
Qed.

Lemma listLength_length (l : list T) : listLength l = Z.of_nat (length l).
Proof. unfold listLength. now rewrite listLengthINT_length. Qed.

Lemma listLength_cons (hd : T) (tl : list T) : listLength (hd :: tl) = listLength tl + 1.
Proof. rewrite !listLength_length. simpl length. lia. Qed.

Lemma readListAt_nth_error (l : list T) (pos : Z) :
  readListAt l pos = nth_error l (Z.to_nat pos).
Proof.
  revert pos. induction l as [|hd tl IH]; intros pos; simpl.
  - now destruct (Z.to_nat pos).
  - destruct (pos <=? 0) eqn:E.
    + apply Z.leb_le in E. replace (Z.to_nat pos) with 0%nat by lia. reflexivity.
    + apply Z.leb_gt in E. rewrite IH.
      replace (Z.to_nat pos) with (S (Z.to_nat (pos - 1))) by lia. reflexivity.
Qed.

Lemma changeListAt_nil (elt : T) (pos : Z) : changeListAt [] elt pos = [elt].
Proof. reflexivity. Qed.

Lemma changeListAt_cons (hd : T) (tl : list T) (elt : T) (pos : Z) :
  changeListAt (hd :: tl) elt pos =
  if pos <=? 0 then elt :: tl else hd :: changeListAt tl elt (pos - 1).
Proof.
  unfold changeListAt. simpl. destruct (pos <=? 0) eqn:E.
  - rewrite copyList_id. destruct tl as [|hd' tl']; simpl; [reflexivity|].
    now rewrite E, copyList_id.
  - simpl. now rewrite E.
Qed.

Lemma searchListINT_found (l : list T) (elt : T) (cmpFunc : T -> T -> bool) :
  forall pos,
    (searchListINT l elt pos cmpFunc = -1 /\ forall a, In a l -> cmpFunc a elt = false)
    \/ (exists k a,
           searchListINT l elt pos cmpFunc = pos + Z.of_nat k
           /\ nth_error l k = Some a /\ cmpFunc a elt = true
           /\ forall j b, (j < k)%nat -> nth_error l j = Some b -> cmpFunc b elt = false).
Proof.
  induction l as [|hd tl IH]; intros pos; simpl.
  - left. split; [reflexivity | intros a []].
  - destruct (cmpFunc hd elt) eqn:E.
    + right. exists 0%nat, hd. repeat split; [lia | assumption | intros j b Hj; lia].
    + destruct (IH (pos + 1)) as [[Hnone Hall] | [k [a [Hres [Hnth [Hcmp Hbefore]]]]]].
      * left. split; [assumption|]. intros a [<- | Hin]; [assumption | now apply Hall].
      * right. exists (S k), a. repeat split; [lia | assumption | assumption |].
        intros [|j] b Hj; simpl; [intros [= <-]; assumption|].
        apply Hbefore. lia.
Qed.

End ListLibrary.

(** X1. [listLength] is the number of elements, and [readListAt l pos] reads
    the element of index max(pos, 0): a negative position reads the head, and
    the call throws exactly when the list has no element at that index. *)
Theorem readListAt_index (T : Type) (l : list T) (pos : Z) :
  listLength l = Z.of_nat (length l)
  /\ readListAt l pos = nth_error l (Z.to_nat pos)
  /\ (readListAt l pos = None <-> listLength l <= Z.max 0 pos).
Proof.
  split; [apply listLength_length|]. split; [apply readListAt_nth_error|].
  rewrite readListAt_nth_error, listLength_length, nth_error_None. lia.
Qed.

(** X2. [addAtList] always adds one element.  For a position up to the
    length (a negative one counting as 0) the element is read back at that
    position and [removeAtList] at the same position restores the list; for a
    position from the length on the element goes to the end. *)
Theorem addAtList_roundtrip (T : Type) (l : list T) (elt : T) (pos : Z) :
  listLength (addAtList l elt pos) = listLength l + 1
  /\ (pos <= listLength l ->
      readListAt (addAtList l elt pos) pos = Some elt
      /\ removeAtList (addAtList l elt pos) pos = l)
  /\ (listLength l <= pos -> addAtList l elt pos = l ++ [elt]).
Proof.
  revert pos. induction l as [|hd tl IH]; intros pos.
  - simpl. split; [reflexivity|]. split; [|reflexivity].
    rewrite listLength_length. simpl. intros Hpos.
    assert (E : (pos <=? 0) = true) by (apply Z.leb_le; lia). now rewrite E.
  - simpl addAtList. destruct (pos <=? 0) eqn:E.
    + apply Z.leb_le in E. rewrite copyList_id. split; [now rewrite !listLength_cons|].
      split.
      * intros _. simpl. assert (E' : (pos <=? 0) = true) by (apply Z.leb_le; lia).
        rewrite E', copyList_id. split; reflexivity.
      * rewrite listLength_cons, listLength_length. lia.
    + apply Z.leb_gt in E. destruct (IH (pos - 1)) as [Hlen [Hread Happ]].
      split; [rewrite !listLength_cons; lia|]. rewrite listLength_cons. split.
      * intros Hpos. destruct Hread as [Hr Hrm]; [lia|]. simpl.
        assert (E' : (pos <=? 0) = false) by (apply Z.leb_gt; lia).
        rewrite E'. now rewrite Hr, Hrm.
      * intros Hpos. simpl. f_equal. apply Happ. lia.
Qed.

Lemma addAtList_roundtrip_witness :
  readListAt (addAtList [10; 20; 30] 15 1) 1 = Some 15
  /\ removeAtList (addAtList [10; 20; 30] 15 1) 1 = [10; 20; 30]
  /\ addAtList [10; 20; 30] 15 7 = [10; 20; 30] ++ [15].
Proof.
  destruct (addAtList_roundtrip [10; 20; 30] 15 1) as [_ [Hin _]].
  destruct (addAtList_roundtrip [10; 20; 30] 15 7) as [_ [_ Hout]].
  destruct Hin as [Hread Hremove]; [vm_compute; discriminate|].
  split; [exact Hread | split; [exact Hremove|]].
  apply Hout. vm_compute. discriminate.
Defined.

(** X3. [changeListAt] on a position that holds an element (a negative one
    counting as 0) replaces that element and nothing else, keeping the
    length; on a position from the length on it does not replace anything
    and the list grows by the element, put at the end. *)
Theorem changeListAt_spec (T : Type) (l : list T) (elt : T) (pos : Z) :
  (Z.max 0 pos < listLength l ->
   listLength (changeListAt l elt pos) = listLength l
   /\ readListAt (changeListAt l elt pos) pos = Some elt
   /\ forall other, Z.max 0 other <> Z.max 0 pos ->
                    readListAt (changeListAt l elt pos) other = readListAt l other)
  /\ (listLength l <= Z.max 0 pos -> changeListAt l elt pos = l ++ [elt]).
Proof.
  revert pos. induction l as [|hd tl IH]; intros pos.
  - rewrite changeListAt_nil, listLength_length. simpl. split; [lia | reflexivity].
  - rewrite changeListAt_cons, !listLength_cons. destruct (pos <=? 0) eqn:E.
    + apply Z.leb_le in E. split; [|rewrite listLength_length; lia].
      intros _. split; [now rewrite !listLength_cons|]. split.
      * simpl. assert (E' : (pos <=? 0) = true) by (apply Z.leb_le; lia). now rewrite E'.
      * intros other Hother. simpl.
        assert (E' : (other <=? 0) = false) by (apply Z.leb_gt; lia). now rewrite E'.
    + apply Z.leb_gt in E. destruct (IH (pos - 1)) as [Hin Hout]. split.
      * intros Hpos. destruct Hin as [Hlen [Hread Hothers]]; [lia|].
        split; [rewrite !listLength_cons; lia|]. split.
        -- simpl. assert (E' : (pos <=? 0) = false) by (apply Z.leb_gt; lia).
           now rewrite E'.
        -- intros other Hother. simpl. destruct (other <=? 0) eqn:Eo; [reflexivity|].
           apply Z.leb_gt in Eo. apply Hothers. lia.
      * intros Hpos. simpl. f_equal. apply Hout. lia.
Qed.

Lemma changeListAt_spec_witness :
  readListAt (changeListAt [10; 20; 30] 25 1) 1 = Some 25
  /\ readListAt (changeListAt [10; 20; 30] 25 1) 2 = readListAt [10; 20; 30] 2
  /\ changeListAt [10; 20; 30] 25 3 = [10; 20; 30] ++ [25].
Proof.
  destruct (changeListAt_spec [10; 20; 30] 25 1) as [Hin _].
  destruct (changeListAt_spec [10; 20; 30] 25 3) as [_ Hout].
  destruct Hin as [_ [Hread Hothers]]; [vm_compute; reflexivity|].
  split; [exact Hread | split].
  - apply Hothers. vm_compute. discriminate.
  - apply Hout. vm_compute. discriminate.
Defined.

(** X4. [searchList] answers -1 exactly when no element matches; otherwise
    it answers the index of the first matching element: an index inside the
    list, at which [readListAt] reads a matching element, no element before
    it matching. *)
Theorem searchList_first_match (T : Type) (l : list T) (elt : T) (cmpFunc : T -> T -> bool) :
  (searchList l elt cmpFunc = -1 <-> forall a, In a l -> cmpFunc a elt = false)
  /\ (searchList l elt cmpFunc <> -1 ->
      0 <= searchList l elt cmpFunc < listLength l
      /\ (exists a, readListAt l (searchList l elt cmpFunc) = Some a /\ cmpFunc a elt = true)
      /\ forall j b, 0 <= j < searchList l elt cmpFunc ->
                     readListAt l j = Some b -> cmpFunc b elt = false).
Proof.
  unfold searchList.
  destruct (searchListINT_found l elt cmpFunc 0)
    as [[Hnone Hall] | [k [a [Hres [Hnth [Hcmp Hbefore]]]]]].
  - split; [split; [intros _; exact Hall | intros _; exact Hnone]|].
    intros Hne. contradiction.
  - rewrite Hres. split.
    + split; [lia|]. intros Hall. exfalso.
      apply nth_error_In in Hnth. rewrite (Hall a Hnth) in Hcmp. discriminate.
    + intros _. split; [|split].
      * rewrite listLength_length.
        assert (Hk : (k < length l)%nat) by (apply nth_error_Some; congruence). lia.
      * exists a. rewrite readListAt_nth_error.
        replace (Z.to_nat (0 + Z.of_nat k)) with k by lia. now split.
      * intros j b Hj Hread. rewrite readListAt_nth_error in Hread.
        apply (Hbefore (Z.to_nat j) b); [lia | assumption].
Qed.

Lemma searchList_first_match_witness :
  0 <= searchList [createPosition 0 0; createPosition 1 2; createPosition 1 2]
                  (createPosition 1 2) positionEquals < 3
  /\ exists a, readListAt [createPosition 0 0; createPosition 1 2; createPosition 1 2]
                 (searchList [createPosition 0 0; createPosition 1 2; createPosition 1 2]
                             (createPosition 1 2) positionEquals) = Some a
               /\ positionEquals a (createPosition 1 2) = true.
Proof.
  destruct (proj2 (searchList_first_match
                     [createPosition 0 0; createPosition 1 2; createPosition 1 2]
                     (createPosition 1 2) positionEquals)) as [Hrange [Hfound _]].
  - vm_compute. discriminate.
  - split; [exact Hrange | exact Hfound].
Defined.

(** X5. [listEquals] holds exactly when the two lists have the same length
    and the comparison holds element by element; with a comparison that
    decides equality it decides the equality of the lists. *)
Theorem listEquals_spec (T : Type) (l1 l2 : list T) (cmpFunc : T -> T -> bool) :
  (listEquals l1 l2 cmpFunc = true <-> Forall2 (fun a b => cmpFunc a b = true) l1 l2)
  /\ ((forall a b, cmpFunc a b = true <-> a = b) ->
      (listEquals l1 l2 cmpFunc = true <-> l1 = l2)).
Proof.
  assert (Hpointwise : forall l1 l2 : list T,
             listEquals l1 l2 cmpFunc = true <-> Forall2 (fun a b => cmpFunc a b = true) l1 l2).
  { clear l1 l2. induction l1 as [|hd1 tl1 IH]; intros [|hd2 tl2]; simpl.
    - split; [constructor | reflexivity].
    - split; [discriminate | intros H; inversion H].
    - split; [discriminate | intros H; inversion H].
    - rewrite andb_true_iff, IH. split.
      + intros [Hhd Htl]. now constructor.
      + intros H. inversion H; subst. now split. }
  split; [apply Hpointwise|].
  intros Hdecides. rewrite Hpointwise. split.
  - intros Hall. induction Hall as [|a b tl1 tl2 Hab _ IH]; [reflexivity|].
    apply Hdecides in Hab. now subst.
  - intros <-. induction l1 as [|hd tl IH]; constructor; [now apply Hdecides | assumption].
Qed.

Lemma listEquals_spec_witness :
  listEquals [createPosition 0 0; createPosition 1 2] [createPosition 0 0; createPosition 1 2]
             positionEquals = true
  <-> [createPosition 0 0; createPosition 1 2] = [createPosition 0 0; createPosition 1 2].
Proof.
  apply (proj2 (listEquals_spec [createPosition 0 0; createPosition 1 2]
                                [createPosition 0 0; createPosition 1 2] positionEquals)).
  exact positionEquals_eq.
Defined.

(* ================================================================== *)
(** * Further properties of the registry and its queries *)

(** X6. [replaceActor] keeps the length of the registry and the place of
    every identifier.  When the identifier of the new actor is present, a
    lookup of it then returns the new actor; when it is absent the registry
    is returned unchanged.  Lookups of other identifiers are not affected. *)
Theorem replaceActor_roundtrip (actors : list Actor) (newActor : Actor) :
  length (replaceActor actors newActor) = length actors
  /\ map id (replaceActor actors newActor) = map id actors
  /\ (In (id newActor) (map id actors) ->
      getActorById (replaceActor actors newActor) (id newActor) = Some newActor)
  /\ (~ In (id newActor) (map id actors) -> replaceActor actors newActor = actors)
  /\ (forall other, other <> id newActor ->
         getActorById (replaceActor actors newActor) other = getActorById actors other).
Proof.
  split; [|split; [|split; [|split]]].
  - rewrite <- (length_map id), replaceActor_ids. apply length_map.
  - apply replaceActor_ids.
  - intros Hin. rewrite getActorById_replaceActor_same.
    destruct (getActorById actors (id newActor)) eqn:E; [reflexivity|].
    apply getActorById_None in E. contradiction.
  - induction actors as [|hd tl IH]; simpl; [reflexivity|].
    intros Hnotin. destruct (id hd =? id newActor) eqn:E.
    + apply Z.eqb_eq in E. exfalso. apply Hnotin. now left.
    + f_equal. apply IH. intros Hin. apply Hnotin. now right.
  - intros other Hne. now apply getActorById_replaceActor_other.
Qed.

Lemma replaceActor_roundtrip_witness :
  getActorById (replaceActor sampleRegistry (setLifePoint (copyNewActor remyWithSpoon 1) 7)) 1
  = Some (setLifePoint (copyNewActor remyWithSpoon 1) 7)
  /\ replaceActor sampleRegistry (copyNewActor remyWithSpoon 9) = sampleRegistry
  /\ getActorById (replaceActor sampleRegistry (setLifePoint (copyNewActor remyWithSpoon 1) 7)) 0
     = getActorById sampleRegistry 0.
Proof.
  destruct (replaceActor_roundtrip sampleRegistry (setLifePoint (copyNewActor remyWithSpoon 1) 7))
    as [_ [_ [Hfound [_ Hother]]]].
  destruct (replaceActor_roundtrip sampleRegistry (copyNewActor remyWithSpoon 9))
    as [_ [_ [_ [Habsent _]]]].
  split; [|split].
  - apply Hfound. simpl. tauto.
  - apply Habsent. simpl. intuition discriminate.
  - apply Hother. simpl. discriminate.
Defined.

(** X7. [removeActor] takes out the first actor carrying the identifier and
    only that one: a later actor with the same identifier stays.  With no
    such actor the registry is returned unchanged; lookups of other
    identifiers are not affected; and in a registry with unique identifiers
    the identifier is no longer found. *)
Theorem removeActor_first_only (actors : list Actor) (anId : Z) :
  (forall before removed after,
      actors = before ++ removed :: after ->
      id removed = anId -> ~ In anId (map id before) ->
      removeActor actors anId = before ++ after)
  /\ (~ In anId (map id actors) -> removeActor actors anId = actors)
  /\ (forall other, other <> anId ->
         getActorById (removeActor actors anId) other = getActorById actors other)
  /\ (NoDup (map id actors) -> getActorById (removeActor actors anId) anId = None).
Proof.
  split; [|split; [|split]].
  - intros before removed after -> Hid. induction before as [|hd tl IH]; simpl; intros Hnotin.
    + subst anId. now rewrite Z.eqb_refl.
    + destruct (id hd =? anId) eqn:E.
      * apply Z.eqb_eq in E. exfalso. apply Hnotin. now left.
      * f_equal. apply IH. intros Hin. apply Hnotin. now right.
  - induction actors as [|hd tl IH]; simpl; [reflexivity|].
    intros Hnotin. destruct (id hd =? anId) eqn:E.
    + apply Z.eqb_eq in E. exfalso. apply Hnotin. now left.
    + f_equal. apply IH. intros Hin. apply Hnotin. now right.
  - intros other Hne. now apply getActorById_removeActor_other.
  - apply getActorById_removeActor_same.
Qed.

Lemma removeActor_first_only_witness :
  removeActor [copyNewActor linguini 0; copyNewActor remyWithSpoon 1; copyNewActor hole 1] 1
  = [copyNewActor linguini 0] ++ [copyNewActor hole 1]
  /\ removeActor sampleRegistry 9 = sampleRegistry
  /\ getActorById (removeActor sampleRegistry 1) 1 = None.
Proof.
  split; [|split].
  - apply (proj1 (removeActor_first_only
                    [copyNewActor linguini 0; copyNewActor remyWithSpoon 1; copyNewActor hole 1] 1)
                 [copyNewActor linguini 0] (copyNewActor remyWithSpoon 1) [copyNewActor hole 1]);
      [reflexivity | reflexivity | simpl; intuition discriminate].
  - apply (proj1 (proj2 (removeActor_first_only sampleRegistry 9))).
    simpl. intuition discriminate.
  - apply (proj2 (proj2 (proj2 (removeActor_first_only sampleRegistry 1)))).
    simpl. repeat constructor; simpl; intuition discriminate.
Defined.

(** X8. The queries by cell and by type select exactly the actors on the
    cell, in registry order, and exactly the actors of the type, in reverse
    registry order. *)
Theorem registry_queries_filter (actors : list Actor) (p : Position) (t : ActorType) :
  getActorsAtPos actors p = filter (fun a => positionEquals (position a) p) actors
  /\ getActorsByType actors t = rev (filter (fun a => actorTypeEquals (type a) t) actors).
Proof.
  split.
  - unfold getActorsAtPos. induction actors as [|hd tl IH]; simpl; [reflexivity|].
    rewrite IH. now destruct (positionEquals (position hd) p).
  - unfold getActorsByType. induction actors as [|hd tl IH]; simpl; [reflexivity|].
    rewrite IH. destruct (actorTypeEquals (type hd) t); [|reflexivity].
    simpl. apply appendList_app.
Qed.

(** X9. A cell is walkable by enemies exactly when every actor standing on
    it is an ENEMY or a GOAL; a cell with no actor on it is walkable. *)
Theorem isWalkableByEnemy_spec (actors : list Actor) (p : Position) :
  (isWalkableByEnemy actors p = true <->
   forall a, In a actors -> position a = p -> type a = ENEMY \/ type a = GOAL)
  /\ ((forall a, In a actors -> position a <> p) -> isWalkableByEnemy actors p = true).
Proof.
  assert (Hiff : isWalkableByEnemy actors p = true <->
                 forall a, In a actors -> position a = p -> type a = ENEMY \/ type a = GOAL).
  { split.
    - intros Hwalk a Hin Hpos.
      destruct (type a) eqn:Ht; try (now left); try (now right); exfalso;
        (assert (Hclosed : isWalkableByEnemy actors p = false)
          by (apply isWalkableByEnemy_false; exists a; unfold blocking; rewrite Ht; tauto));
        congruence.
    - intros Hall. destruct (isWalkableByEnemy actors p) eqn:E; [reflexivity|].
      apply isWalkableByEnemy_false in E. destruct E as [a [Hin [Hpos Hb]]].
      destruct (Hall a Hin Hpos) as [Ht | Ht]; rewrite Ht in Hb;
        destruct Hb as [Hb | [Hb | [Hb | Hb]]]; discriminate. }
  split; [exact Hiff|].
  intros Hempty. apply Hiff. intros a Hin Hpos. now destruct (Hempty a Hin).
Qed.

Lemma isWalkableByEnemy_spec_witness :
  isWalkableByEnemy sampleRegistry (createPosition 3 3) = true.
Proof.
  apply (proj2 (isWalkableByEnemy_spec sampleRegistry (createPosition 3 3))).
  intros a [<- | [<- | [<- | []]]]; simpl; discriminate.
Defined.

Section Neighbourhood.

Lemma neighborCells_spec (p q : Position) :
  In q (neighborCells p) <-> Z.max (Z.abs (x q - x p)) (Z.abs (y q - y p)) = 1.
Proof.
  unfold neighborCells, translatePosition, getX, getY. simpl. split.
  - intros H.
    repeat (destruct H as [H | H]; [subst q; simpl; lia|]). contradiction.
  - intros H.
    assert (Hx : x q = x p + -1 \/ x q = x p + 0 \/ x q = x p + 1) by lia.
    assert (Hy : y q = y p + -1 \/ y q = y p + 0 \/ y q = y p + 1) by lia.
    destruct q as [qx qy]. simpl in *.
    destruct Hx as [-> | [-> | ->]]; destruct Hy as [-> | [-> | ->]];
      try (exfalso; lia); tauto.
Qed.

Lemma getNeighbors_cells (cells : list Position) (actors : list Actor) (a : Actor) :
  In a (listFoldR (fun acc p => concatList acc (getActorsAtPos actors p)) [] cells)
  <-> In a actors /\ In (position a) cells.
Proof.
  assert (Hcat : forall l1 l2 : list Actor, concatList l1 l2 = l1 ++ l2).
  { induction l1 as [|hd tl IH]; intros l2; simpl; [reflexivity | now rewrite IH]. }
  induction cells as [|cell rest IH]; simpl; [tauto|].
  rewrite Hcat, in_app_iff, IH, getActorsAtPos_In. intuition (subst; auto).
Qed.

End Neighbourhood.

(** X10. [getNeighbors] returns exactly the actors of the registry standing
    on one of the eight cells around the given actor, diagonals included:
    those whose larger coordinate offset is 1.  An actor on the same cell,
    the given actor among them, is never returned. *)
Theorem getNeighbors_spec (anActor : Actor) (actors : list Actor) :
  (forall a, In a (getNeighbors anActor actors) <->
             In a actors
             /\ Z.max (Z.abs (x (position a) - x (position anActor)))
                      (Z.abs (y (position a) - y (position anActor))) = 1)
  /\ (forall a, position a = position anActor -> ~ In a (getNeighbors anActor actors)).
Proof.
  assert (Hmem : forall a, In a (getNeighbors anActor actors) <->
             In a actors
             /\ Z.max (Z.abs (x (position a) - x (position anActor)))
                      (Z.abs (y (position a) - y (position anActor))) = 1).
  { intros a. unfold getNeighbors. now rewrite getNeighbors_cells, neighborCells_spec. }
  split; [exact Hmem|].
  intros a Hpos Hin. apply Hmem in Hin. destruct Hin as [_ Hdist].
  rewrite Hpos in Hdist. lia.
Qed.

Lemma getNeighbors_spec_witness :
  ~ In (copyNewActor remyWithSpoon 1)
       (getNeighbors (copyNewActor hole 0) [copyNewActor hole 0; copyNewActor remyWithSpoon 1]).
Proof.
  apply (proj2 (getNeighbors_spec (copyNewActor hole 0)
                                  [copyNewActor hole 0; copyNewActor remyWithSpoon 1])).
  reflexivity.
Defined.

(** X11. [chooseGoal] answers [undefined] exactly when the registry holds no
    GOAL actor; otherwise it answers a GOAL actor of the registry. *)
Theorem chooseGoal_spec (anActor : Actor) (actors : list Actor) :
  (chooseGoal anActor actors = None <-> forall a, In a actors -> type a <> GOAL)
  /\ (forall goal, chooseGoal anActor actors = Some goal ->
                   In goal actors /\ type goal = GOAL).
Proof.
  assert (Hgoals : forall a, In a (getGoals actors) <-> In a actors /\ type a = GOAL).
  { intros a. unfold getGoals, getActorsByType.
    induction actors as [|hd tl IH]; simpl; [tauto|].
    destruct (actorTypeEquals (type hd) GOAL) eqn:E.
    - apply actorTypeEquals_eq in E. rewrite appendList_app, in_app_iff, IH. simpl.
      intuition (subst; auto).
    - rewrite IH. split; [tauto|]. intros [[<- | Hin] Ht]; [|tauto].
      apply actorTypeEquals_eq in Ht. congruence. }
  unfold chooseGoal. destruct (getGoals actors) as [|first rest] eqn:E.
  - split; [|discriminate]. split; [|reflexivity].
    intros _ a Hin Ht. apply (proj2 (Hgoals a)). now split.
  - split.
    + split; [discriminate|]. intros Hnone. exfalso.
      destruct (proj1 (Hgoals first) (or_introl eq_refl)) as [Hin Ht].
      exact (Hnone first Hin Ht).
    + intros goal Hsome. apply Hgoals.
      pose proof (@listFoldR_invariant Actor Actor (fun acc => In acc (first :: rest))
                    (fun acc g => if PrimFloat.ltb (actorDistance anActor g)
                                                   (actorDistance anActor acc)
                                  then g else acc)
                    first (first :: rest)) as Hfold.
      injection Hsome as <-. apply Hfold; [now left|].
      intros acc g Hg Hacc.
      now destruct (PrimFloat.ltb (actorDistance anActor g) (actorDistance anActor acc)).
Qed.

Lemma chooseGoal_spec_witness :
  exists goal, chooseGoal (copyNewActor remyWithSpoon 1) sampleRegistry = Some goal
               /\ In goal sampleRegistry /\ type goal = GOAL.
Proof.
  exists (copyNewActor linguini 0). split; [reflexivity|].
  apply (proj2 (chooseGoal_spec (copyNewActor remyWithSpoon 1) sampleRegistry)).
  reflexivity.
Defined.

(** X12. [getAllActorsInRange] selects, in reverse registry order, the
    actors whose distance to the reference actor is at most the range and
    whose identifier differs from its own: no actor with the identifier of the
    reference actor is ever returned, whatever the range. *)
Theorem getAllActorsInRange_spec (actors : list Actor) (actor : Actor) (range : float) :
  getAllActorsInRange actors actor range =
  rev (filter (fun elt => PrimFloat.leb (actorDistance elt actor) range
                          && negb (id elt =? id actor)) actors)
  /\ (forall elt, In elt (getAllActorsInRange actors actor range) ->
                  In elt actors /\ id elt <> id actor).
Proof.
  assert (Hfilter : getAllActorsInRange actors actor range =
                    rev (filter (fun elt => PrimFloat.leb (actorDistance elt actor) range
                                            && negb (id elt =? id actor)) actors)).
  { unfold getAllActorsInRange. induction actors as [|hd tl IH]; simpl; [reflexivity|].
    rewrite IH.
    destruct (PrimFloat.leb (actorDistance hd actor) range && negb (id hd =? id actor));
      [|reflexivity].
    simpl. apply appendList_app. }
  split; [exact Hfilter|].
  intros elt. rewrite Hfilter, <- in_rev, filter_In, andb_true_iff, negb_true_iff, Z.eqb_neq.
  tauto.
Qed.

Section InitialRegistry.

Lemma NoDup_map_injective (A B : Type) (f : A -> B) (l : list A) :
  (forall a1 a2, f a1 = f a2 -> a1 = a2) -> NoDup l -> NoDup (map f l).
Proof.
  intros Hinj Hnd. induction Hnd as [|a l Hnotin Hnd IH]; simpl; constructor; [|assumption].
  intros Hin. apply in_map_iff in Hin. destruct Hin as [a' [Heq Hin]].
  apply Hinj in Heq. now subst.
Qed.

Lemma placeActors_ids (placements : list (Actor * Position)) :
  forall id_value,
    map id (fst (placeActors placements id_value))
    = map (fun k => id_value + Z.of_nat k) (seq 0 (length placements))
    /\ snd (placeActors placements id_value) = id_value + Z.of_nat (length placements)
    /\ map position (fst (placeActors placements id_value)) = map snd placements
    /\ map type (fst (placeActors placements id_value)) = map (fun tp => type (fst tp)) placements.
Proof.
  induction placements as [|[template p] rest IH]; intros id_value.
  - simpl. repeat split; lia.
  - simpl placeActors. destruct (IH (id_value + 1)) as [Hids [Hnext [Hpos Htype]]].
    destruct (placeActors rest (id_value + 1)) as [others final]. simpl in *.
    repeat split.
    + f_equal; [lia|]. rewrite Hids, <- seq_shift, map_map.
      apply map_ext. intros k. lia.
    + lia.
    + now rewrite Hpos.
    + now rewrite Htype.
Qed.

End InitialRegistry.

(** X13. Whatever the value of the identifier counter, [initializeActors]
    gives its 36 actors the identifiers counter, counter + 1, ... in the
    order of the array, all distinct, and leaves the counter past every
    identifier it handed out. *)
Theorem initializeActors_ids (aWorld : World) (id_value : Z) :
  map id (fst (initializeActors aWorld id_value))
  = map (fun k => id_value + Z.of_nat k) (seq 0 36)
  /\ NoDup (map id (fst (initializeActors aWorld id_value)))
  /\ snd (initializeActors aWorld id_value) = id_value + 36
  /\ (forall a, In a (fst (initializeActors aWorld id_value)) ->
                id_value <= id a < snd (initializeActors aWorld id_value)).
Proof.
  unfold initializeActors.
  destruct (placeActors_ids initialPlacements id_value) as [Hids [Hnext _]].
  change (length initialPlacements) with 36%nat in Hids, Hnext.
  assert (Hrange : forall i, In i (map id (fst (placeActors initialPlacements id_value))) ->
                             id_value <= i < id_value + 36).
  { intros i. rewrite Hids, in_map_iff. intros [k [<- Hk]]. apply in_seq in Hk. lia. }
  split; [exact Hids|]. split; [|split].
  - rewrite Hids. apply NoDup_map_injective; [|apply seq_NoDup].
    intros k1 k2. lia.
  - rewrite Hnext. reflexivity.
  - intros a Hin. rewrite Hnext. apply Hrange. now apply in_map.
Qed.

(* ================================================================== *)
(** * Further properties of the world *)

Section WorldFacts.

Lemma createVertexesRec_bare (fuel : nat) :
  forall cur size vs,
    createVertexesRec fuel cur size = Some vs -> Forall (fun v => adj v = []) vs.
Proof.
  induction fuel as [|fuel IH]; intros cur size vs; simpl; [discriminate|].
  destruct (positionEquals cur size).
  - intros [= <-]. repeat constructor.
  - destruct (createVertexesRec fuel (nextPos cur size) size) as [rest|] eqn:E; [|discriminate].
    intros [= <-]. rewrite appendList_app. apply Forall_app. split; [eapply IH; eassumption|].
    repeat constructor.
Qed.

(** The lookup of [world.ts] on a list of bare vertices. *)
Lemma world_getVertexByPos_bare (vs : list Vertex) (p : Position) :
  Forall (fun v => adj v = []) vs -> In p (map pos vs) ->
  WorldTs.getVertexByPos vs p = createVertex p [].
Proof.
  intros Hbare. induction Hbare as [|hd tl Hhd Htl IH]; simpl; [contradiction|].
  intros Hin. destruct (positionEquals (pos hd) p) eqn:E.
  - apply positionEquals_eq in E. destruct hd as [hp ha]. simpl in *. now subst.
  - apply positionEquals_neq in E. destruct Hin as [Hin | Hin]; [contradiction | now apply IH].
Qed.

Lemma addEdgesToGraphRec_In (vertexes : list Vertex) (size : Position) (cursor : list Vertex)
      (v : Vertex) :
  In v (addEdgesToGraphRec vertexes size cursor) <->
  exists v0, In v0 cursor /\ v = addEdges vertexes size v0.
Proof.
  induction cursor as [|hd tl IH]; simpl.
  - split; [contradiction | intros [v0 [[] _]]].
  - rewrite appendList_app, in_app_iff, IH. simpl. split.
    + intros [[v0 [Hin Hv]] | [<- | []]]; [exists v0 | exists hd]; auto.
    + intros [v0 [[<- | Hin] Hv]]; [right; left; now symmetry | left; exists v0; auto].
Qed.

(** Adding the edges to a bare vertex of the grid. *)
Lemma addEdges_cardinal (vs : list Vertex) (size p : Position) :
  Forall (fun v => adj v = []) vs ->
  (forall q, 0 <= x q <= x size /\ 0 <= y q <= y size -> In q (map pos vs)) ->
  0 <= x p <= x size -> 0 <= y p <= y size ->
  addEdges vs size (createVertex p []) = createVertex p (map bareEdge (cardinalCells size p)).
Proof.
  intros Hbare Hgrid Hx Hy. unfold addEdges, cardinalCells, addEdge, bareEdge.
  destruct (x p >? 0) eqn:E1; destruct (x p <? x size) eqn:E2;
    destruct (y p >? 0) eqn:E3; destruct (y p <? y size) eqn:E4;
    repeat (progress (simpl; rewrite ?E1, ?E2, ?E3, ?E4));
    try rewrite Z.gtb_lt in E1; try rewrite Z.ltb_lt in E2;
    try rewrite Z.gtb_lt in E3; try rewrite Z.ltb_lt in E4;
    repeat (rewrite world_getVertexByPos_bare;
            [| assumption | apply Hgrid; simpl; lia]);
    reflexivity.
Qed.

Lemma cardinalCells_spec (size p q : Position) :
  0 <= x p <= x size -> 0 <= y p <= y size ->
  (In q (cardinalCells size p) <->
   (0 <= x q <= x size /\ 0 <= y q <= y size)
   /\ Z.abs (x q - x p) + Z.abs (y q - y p) = 1).
Proof.
  intros Hx Hy. unfold cardinalCells. rewrite !in_app_iff.
  destruct (x p >? 0) eqn:E1; destruct (x p <? x size) eqn:E2;
    destruct (y p >? 0) eqn:E3; destruct (y p <? y size) eqn:E4;
    try rewrite Z.gtb_lt in E1; try rewrite Z.ltb_lt in E2;
    try rewrite Z.gtb_lt in E3; try rewrite Z.ltb_lt in E4;
    try (rewrite Z.gtb_ltb in E1; apply Z.ltb_ge in E1);
    try apply Z.ltb_ge in E2;
    try (rewrite Z.gtb_ltb in E3; apply Z.ltb_ge in E3);
    try apply Z.ltb_ge in E4;
    simpl; (split;
      [ intros H; repeat (destruct H as [H | H]); try contradiction; subst q; simpl; lia
      | intros [[Hqx Hqy] Hd];
        assert (Hcases : (x q = x p - 1 /\ y q = y p) \/ (x q = x p + 1 /\ y q = y p)
                         \/ (x q = x p /\ y q = y p - 1) \/ (x q = x p /\ y q = y p + 1)) by lia;
        destruct q as [qx qy]; simpl in *;
        destruct Hcases as [[-> ->] | [[-> ->] | [[-> ->] | [-> ->]]]];
        try (exfalso; lia); tauto ]).
Qed.

End WorldFacts.

(** X14. A size with a negative coordinate is never reached by the walk of
    [createVertexesRec] from (0,0): [buildWorld] does not return, whatever
    the fuel. *)
Theorem buildWorld_negative_size (size : Position) :
  x size < 0 \/ y size < 0 -> forall fuel, buildWorld fuel size = None.
Proof.
  intros Hneg fuel. unfold buildWorld.
  assert (Hwalk : forall fuel cur,
             (x size < 0 /\ 0 <= x cur) \/ (y size < 0 /\ 0 <= y cur) ->
             createVertexesRec fuel cur size = None).
  { clear fuel. induction fuel as [|fuel IH]; intros cur Hcur; simpl; [reflexivity|].
    assert (Hne : positionEquals cur size = false).
    { apply positionEquals_neq. intros ->. lia. }
    rewrite Hne. rewrite IH; [reflexivity|].
    unfold nextPos. destruct (x cur >=? x size) eqn:E; simpl; lia. }
  rewrite Hwalk; [reflexivity|]. simpl. lia.
Qed.

Lemma buildWorld_negative_size_witness :
  buildWorld 1000 (createPosition 3 (-1)) = None.
Proof.
  apply (buildWorld_negative_size (createPosition 3 (-1))). simpl. lia.
Defined.

Section BuiltWorld.
Variable size : Position.
Hypothesis size_x : 0 <= x size.
Hypothesis size_y : 0 <= y size.

(** The bare vertices of the grid, whatever fuel produced them. *)
Lemma createVertexesRec_grid (fuel : nat) (vs : list Vertex) :
  createVertexesRec fuel (createPosition 0 0) size = Some vs ->
  Forall (fun v => adj v = []) vs
  /\ NoDup (map pos vs)
  /\ (forall p, In p (map pos vs) <-> (0 <= x p <= x size /\ 0 <= y p <= y size)).
Proof.
  intros Hrun. split; [eapply createVertexesRec_bare; eassumption|].
  set (k := Z.to_nat ((x size + 1) * (y size + 1) - 1)).
  destruct (@createVertexesRec_cells size size_x size_y k (createPosition 0 0))
    as [vs' [Hrun' [_ [Hnd Hin]]]];
    [simpl; lia | simpl; lia | unfold cellsAfter; simpl; subst k; nia |].
  assert (Hsame : vs = vs').
  { destruct (Nat.le_ge_cases fuel (S k)) as [Hle | Hle].
    - apply (createVertexesRec_fuel _ (S k - fuel)) in Hrun.
      replace (fuel + (S k - fuel))%nat with (S k) in Hrun by lia. congruence.
    - apply (createVertexesRec_fuel _ (fuel - S k)) in Hrun'.
      replace (S k + (fuel - S k))%nat with fuel in Hrun' by lia. congruence. }
  subst vs'. split; [assumption|].
  intros p. rewrite Hin. unfold fromCell. simpl. lia.
Qed.

(** The vertices of a built world, one by one. *)
Lemma buildWorld_vertex (fuel : nat) (world : World) (v : Vertex) :
  buildWorld fuel size = Some world ->
  In v (vertexes (graph world)) ->
  (0 <= x (pos v) <= x size /\ 0 <= y (pos v) <= y size)
  /\ v = createVertex (pos v) (map bareEdge (cardinalCells size (pos v))).
Proof.
  unfold buildWorld.
  destruct (createVertexesRec fuel (createPosition 0 0) size) as [vs|] eqn:Hrun; [|discriminate].
  intros [= <-]. simpl. unfold addEdgesToGraph. rewrite addEdgesToGraphRec_In.
  intros [v0 [Hin ->]].
  destruct (@createVertexesRec_grid fuel vs Hrun) as [Hbare [_ Hgrid]].
  assert (Hv0 : adj v0 = []) by (rewrite Forall_forall in Hbare; now apply Hbare).
  assert (Hrange : 0 <= x (pos v0) <= x size /\ 0 <= y (pos v0) <= y size)
    by (apply Hgrid; now apply in_map).
  destruct v0 as [p0 a0]. simpl in *. subst a0.
  rewrite (@addEdges_cardinal vs size p0 Hbare (fun q Hq => proj2 (Hgrid q) Hq)
                              (proj1 Hrange) (proj2 Hrange)).
  simpl. split; [assumption | reflexivity].
Qed.

Lemma buildWorld_positions (fuel : nat) (world : World) (p : Position) :
  buildWorld fuel size = Some world ->
  (In p (map pos (vertexes (graph world))) <-> (0 <= x p <= x size /\ 0 <= y p <= y size)).
Proof.
  unfold buildWorld.
  destruct (createVertexesRec fuel (createPosition 0 0) size) as [vs|] eqn:Hrun; [|discriminate].
  intros [= <-]. simpl. unfold addEdgesToGraph.
  rewrite (addEdgesToGraphRec_pos size), <- in_rev.
  now destruct (@createVertexesRec_grid fuel vs Hrun) as [_ [_ Hgrid]].
Qed.

Lemma buildWorld_size (fuel : nat) (world : World) :
  buildWorld fuel size = Some world -> WorldTs.size world = size.
Proof.
  unfold buildWorld.
  destruct (createVertexesRec fuel (createPosition 0 0) size); [|discriminate].
  now intros [= <-].
Qed.

Lemma buildWorld_edgesResolved (fuel : nat) (world : World) :
  buildWorld fuel size = Some world -> edgesResolved (graph world).
Proof.
  intros Hworld v e Hv He.
  destruct (@buildWorld_vertex fuel world v Hworld Hv) as [Hrange Hshape].
  rewrite Hshape in He. simpl in He. apply in_map_iff in He. destruct He as [q [<- Hq]].
  simpl. apply (@buildWorld_positions fuel world _ Hworld).
  apply cardinalCells_spec in Hq; tauto.
Qed.

End BuiltWorld.

(** X15. In the world built for a size with non-negative coordinates, a
    position is inside the world exactly when the graph holds a vertex at it:
    the lookup of [vertex.ts] finds a vertex at every position that
    [isInWorld] accepts and throws at every position that it rejects. *)
Theorem buildWorld_lookup (size : Position) (fuel : nat) (world : World) (p : Position) :
  0 <= x size -> 0 <= y size ->
  buildWorld fuel size = Some world ->
  (isInWorld world p = true ->
   exists v, VertexTs.getVertexByPos (vertexes (graph world)) p = Ok v /\ pos v = p)
  /\ (isInWorld world p = false ->
      VertexTs.getVertexByPos (vertexes (graph world)) p = Throw (CantFindVertex p)).
Proof.
  intros Hx Hy Hworld.
  pose proof (@buildWorld_positions size Hx Hy fuel world p Hworld) as Hpos.
  pose proof (isInWorld_bounds world p) as Hin.
  rewrite (@buildWorld_size size fuel world Hworld) in Hin.
  split; intros Hw.
  - destruct (VertexTs.getVertexByPos (vertexes (graph world)) p) as [v|e] eqn:E.
    + exists v. split; [reflexivity|]. now destruct (getVertexByPos_Ok _ _ E).
    + exfalso. destruct (getVertexByPos_Throw _ _ E) as [_ Hnone].
      apply Hin in Hw. apply Hpos in Hw. apply in_map_iff in Hw.
      destruct Hw as [v [Hv Hvin]]. exact (Hnone v Hvin Hv).
  - destruct (VertexTs.getVertexByPos (vertexes (graph world)) p) as [v|e] eqn:E.
    + exfalso. destruct (getVertexByPos_Ok _ _ E) as [Hvin Hv].
      assert (Hp : In p (map pos (vertexes (graph world)))) by (rewrite <- Hv; now apply in_map).
      apply Hpos in Hp. apply Hin in Hp. congruence.
    + now destruct (getVertexByPos_Throw _ _ E) as [-> _].
Qed.

Lemma buildWorld_lookup_witness :
  exists world,
    buildWorld 9 (createPosition 2 2) = Some world
    /\ (exists v, VertexTs.getVertexByPos (vertexes (graph world)) (createPosition 2 1) = Ok v
                  /\ pos v = createPosition 2 1)
    /\ VertexTs.getVertexByPos (vertexes (graph world)) (createPosition 3 1)
       = Throw (CantFindVertex (createPosition 3 1)).
Proof.
  eexists. split; [reflexivity|]. split.
  - refine (proj1 (@buildWorld_lookup (createPosition 2 2) 9 _ (createPosition 2 1) _ _ eq_refl) _);
      [simpl; lia | simpl; lia | reflexivity].
  - refine (proj2 (@buildWorld_lookup (createPosition 2 2) 9 _ (createPosition 3 1) _ _ eq_refl) _);
      [simpl; lia | simpl; lia | reflexivity].
Defined.

(** X16. In the world built for a size with non-negative coordinates, the
    edges of every vertex lead, each with weight 1 and in the order left,
    right, above, below, to the cells next to it that are inside the world,
    and to no other cell; the vertex stored in an edge carries no edges of its
    own.  Adjacency is therefore symmetric. *)
Theorem buildWorld_adjacency (size : Position) (fuel : nat) (world : World) (v : Vertex) :
  0 <= x size -> 0 <= y size ->
  buildWorld fuel size = Some world ->
  In v (vertexes (graph world)) ->
  adj v = map bareEdge (cardinalCells size (pos v))
  /\ (forall q, In q (map (fun e => pos (vertex e)) (adj v)) <->
                isInWorld world q = true
                /\ Z.abs (x q - x (pos v)) + Z.abs (y q - y (pos v)) = 1)
  /\ (forall u, In u (vertexes (graph world)) ->
                In (pos u) (map (fun e => pos (vertex e)) (adj v)) ->
                In (pos v) (map (fun e => pos (vertex e)) (adj u))).
Proof.
  intros Hx Hy Hworld Hv.
  assert (Hadj : forall u, In u (vertexes (graph world)) ->
             (0 <= x (pos u) <= x size /\ 0 <= y (pos u) <= y size)
             /\ forall q, In q (map (fun e => pos (vertex e)) (adj u)) <->
                          (0 <= x q <= x size /\ 0 <= y q <= y size)
                          /\ Z.abs (x q - x (pos u)) + Z.abs (y q - y (pos u)) = 1).
  { intros u Hu. destruct (@buildWorld_vertex size Hx Hy fuel world u Hworld Hu) as [Hrange Hshape].
    split; [assumption|]. intros q. rewrite Hshape at 1. simpl.
    rewrite map_map. unfold bareEdge. simpl. rewrite map_id.
    apply cardinalCells_spec; tauto. }
  destruct (@buildWorld_vertex size Hx Hy fuel world v Hworld Hv) as [Hrange Hshape].
  split; [rewrite Hshape at 1; reflexivity|]. split.
  - intros q. rewrite (proj2 (Hadj v Hv) q), isInWorld_bounds, (@buildWorld_size size fuel world Hworld).
    tauto.
  - intros u Hu Hin. apply (proj2 (Hadj v Hv)) in Hin. apply (proj2 (Hadj u Hu)).
    split; [assumption|]. lia.
Qed.

Lemma buildWorld_adjacency_witness :
  exists world v,
    buildWorld 9 (createPosition 2 2) = Some world
    /\ In v (vertexes (graph world))
    /\ pos v = createPosition 0 0
    /\ adj v = map bareEdge (cardinalCells (createPosition 2 2) (pos v)).
Proof.
  eexists. eexists. split; [reflexivity|].
  assert (Hin : In (createVertex (createPosition 0 0)
                      [bareEdge (createPosition 1 0); bareEdge (createPosition 0 1)])
                   (vertexes (graph
                      {| graph := createGraph
                           (addEdgesToGraph
                              [ createVertex (createPosition 2 2) []; createVertex (createPosition 1 2) [];
                                createVertex (createPosition 0 2) []; createVertex (createPosition 2 1) [];
                                createVertex (createPosition 1 1) []; createVertex (createPosition 0 1) [];
                                createVertex (createPosition 2 0) []; createVertex (createPosition 1 0) [];
                                createVertex (createPosition 0 0) [] ]
                              (createPosition 2 2)) 4;
                         size := createPosition 2 2 |}))) by (left; reflexivity).
  split; [exact Hin|]. split; [reflexivity|].
  refine (proj1 (@buildWorld_adjacency (createPosition 2 2) 9 _ _ _ _ eq_refl Hin));
    simpl; lia.
Defined.


(* ================================================================== *)
(** * Further properties of the search *)

(** ** Any property of nodes that each opened neighbour inherits *)

Section NodeInvariant.
Variables (dst : Position) (G : Graph) (actors : list Actor).
Variable P : Node -> Prop.
Hypothesis P_neighbour :
  forall current edge v,
    P current -> In edge (adj (nvertex current)) ->
    VertexTs.getVertexByPos (vertexes G) (pos (vertex edge)) = Ok v ->
    isWalkableByEnemy actors (pos v) = true ->
    P (makeNode (Some current) v dst).

Lemma visitEdge_invariant (current : Node) (openList closedList : list Node) (edge : Edge)
      (openList' closedList' : list Node) :
  P current -> In edge (adj (nvertex current)) -> Forall P openList ->
  visitEdge current dst G actors (openList, closedList) edge = Ok (openList', closedList') ->
  Forall P openList'.
Proof.
  intros Hcur Hedge Hopen. unfold visitEdge.
  destruct (VertexTs.getVertexByPos (vertexes G) (pos (vertex edge))) as [v|e] eqn:Hv; simpl;
    [|discriminate].
  destruct (isNodeInList closedList _); [intros [= <- <-]; assumption|].
  destruct (isWalkableByEnemy actors (pos v)) eqn:Hwalk; simpl;
    [|intros [= <- <-]; assumption].
  assert (Hnew : P (makeNode (Some current) v dst)) by (eapply P_neighbour; eassumption).
  destruct (isNodeInList openList _); simpl.
  - destruct (updateNodeInList openList _) as [updated|e] eqn:Hup; simpl; [|discriminate].
    intros [= <- <-]. eapply updateNodeInList_Forall; eassumption.
  - intros [= <- <-]. rewrite appendList_app. apply Forall_app. split; [assumption|].
    constructor; [assumption | constructor].
Qed.

Lemma visitEdges_invariant (current : Node) (edges : list Edge)
      (openList closedList openList' closedList' : list Node) :
  P current -> incl edges (adj (nvertex current)) -> Forall P openList ->
  listFoldR (fun acc edge => lists <- acc ;; visitEdge current dst G actors lists edge)
            (Ok (openList, closedList)) edges = Ok (openList', closedList') ->
  Forall P openList'.
Proof.
  intros Hcur Hincl Hopen. revert openList' closedList'.
  induction edges as [|edge rest IH]; simpl; intros openList' closedList'.
  - intros [= <- <-]. assumption.
  - destruct (listFoldR _ _ rest) as [[open1 closed1]|e]; simpl; [|discriminate].
    intros Hvisit. eapply visitEdge_invariant; [exact Hcur | | | exact Hvisit].
    + apply Hincl. now left.
    + eapply IH; [|reflexivity]. intros e He. apply Hincl. now right.
Qed.

(** A returned path is empty or rebuilt from a node with the property that
    stands on the destination. *)
Lemma pathfindingRec_invariant (fuel : nat) :
  forall openList closedList path,
    Forall P openList ->
    pathfindingRec fuel openList closedList dst G actors = Some (Ok path) ->
    path = [] \/ exists node, P node /\ nodePos node = dst /\ path = reconstructPath node.
Proof.
  induction fuel as [|fuel IH]; intros openList closedList path Hopen; simpl; [discriminate|].
  destruct (isEmpty openList); [intros [= <-]; now left|].
  destruct (extractClosestNode openList) as [current|e] eqn:Hext; [|discriminate].
  assert (Hcur : P current).
  { rewrite Forall_forall in Hopen. apply Hopen. now apply extractClosestNode_In. }
  destruct (positionEquals (pos (nvertex current)) dst) eqn:Hdst.
  - intros [= <-]. right. exists current. apply positionEquals_eq in Hdst. auto.
  - destruct (listFoldR _ _ (adj (nvertex current))) as [[open2 closed2]|e] eqn:Hfold;
      [|discriminate].
    apply IH. eapply visitEdges_invariant; [exact Hcur | apply incl_refl | | exact Hfold].
    now apply removeNodeFromList_Forall.
Qed.

End NodeInvariant.

(** ** The shape of a returned path *)

Section PathShape.
Variables (src dst : Position) (G : Graph) (actors : list Actor).

Lemma followsEdges_snoc (path : list Vertex) (v : Vertex) :
  path <> [] -> followsEdges path ->
  (forall d, exists e, In e (adj (last path d)) /\ pos (vertex e) = pos v) ->
  followsEdges (path ++ [v]).
Proof.
  induction path as [|u rest IH]; [congruence|]. intros _ Hpath Hlast.
  destruct rest as [|w rest'].
  - simpl. split; [exact (Hlast u) | exact I].
  - change (followsEdges (u :: (w :: rest') ++ [v])).
    simpl in Hpath. destruct Hpath as [Hlink Hrest].
    simpl. split; [exact Hlink|].
    apply IH; [discriminate | exact Hrest | exact Hlast].
Qed.

Lemma reconstructPath_traced (node : Node) :
  tracedFrom G src node ->
  Forall (fun v => In v (vertexes G)) (reconstructPath node)
  /\ followsEdges (reconstructPath node)
  /\ (exists first rest, reconstructPath node = first :: rest /\ pos first = src)
  /\ (forall d, last (reconstructPath node) d = nvertex node)
  /\ Z.of_nat (length (reconstructPath node)) = distance node + 1.
Proof.
  induction node as [v d s | v p d s IH] using Node_parent_ind; simpl.
  - intros [Hin [Hpos Hd]]. subst d. repeat split; try reflexivity.
    + constructor; [assumption | constructor].
    + exists v, []. now split.
  - intros [Hin [Hedge [Hd Hp]]].
    destruct (IH Hp) as [Hall [Hfollow [[first [rest [Hpath Hfirst]]] [Hlast Hlen]]]].
    rewrite appendList_app. repeat split.
    + apply Forall_app. split; [assumption | constructor; [assumption | constructor]].
    + apply followsEdges_snoc; [rewrite Hpath; discriminate | assumption |].
      intros d0. rewrite Hlast. exact Hedge.
    + exists first, (rest ++ [v]). rewrite Hpath. now split.
    + intros d0. apply last_last.
    + rewrite length_app. simpl. lia.
Qed.

Lemma tracedFrom_neighbour (current : Node) (edge : Edge) (v : Vertex) :
  tracedFrom G src current -> In edge (adj (nvertex current)) ->
  VertexTs.getVertexByPos (vertexes G) (pos (vertex edge)) = Ok v ->
  isWalkableByEnemy actors (pos v) = true ->
  tracedFrom G src (makeNode (Some current) v dst).
Proof.
  intros Hcur Hedge Hv _. destruct (getVertexByPos_Ok _ _ Hv) as [Hin Hpos].
  simpl. repeat split; try assumption.
  exists edge. split; [assumption | now symmetry].
Qed.

Lemma tracedFrom_vertex (node : Node) :
  tracedFrom G src node -> In (nvertex node) (vertexes G).
Proof. destruct node as [v [p|] d s]; simpl; tauto. Qed.

Lemma pathfinding_traced (fuel : nat) (path : list Vertex) :
  pathfinding fuel src dst G actors = Some (Ok path) ->
  path = [] \/ exists node, tracedFrom G src node /\ nodePos node = dst
                            /\ path = reconstructPath node.
Proof.
  unfold pathfinding.
  destruct (VertexTs.getVertexByPos (vertexes G) src) as [v0|e] eqn:Hsrc; [|discriminate].
  destruct (getVertexByPos_Ok _ _ Hsrc) as [Hin Hpos].
  intros Hrec.
  apply (@pathfindingRec_invariant dst G actors (tracedFrom G src) tracedFrom_neighbour
           fuel [makeNode None v0 dst] [] path); [|exact Hrec].
  constructor; [simpl; auto | constructor].
Qed.

End PathShape.

(** X18. A path returned by [pathfinding] is empty or starts on the source
    position and ends on the destination position; all its vertices are
    vertices of the graph, and each one is reached from the one before it by
    one of its edges. *)
Theorem pathfinding_path_shape (fuel : nat) (src dst : Position) (G : Graph)
        (actors : list Actor) (path : list Vertex) :
  pathfinding fuel src dst G actors = Some (Ok path) ->
  (path = [] \/
   exists first rest, path = first :: rest /\ pos first = src /\ pos (last path first) = dst)
  /\ Forall (fun v => In v (vertexes G)) path
  /\ followsEdges path.
Proof.
  intros Hrun. destruct (pathfinding_traced _ _ _ _ _ Hrun) as [-> | [node [Htr [Hdst ->]]]].
  - split; [now left|]. split; [constructor | exact I].
  - destruct (@reconstructPath_traced src G node Htr)
      as [Hall [Hfollow [[first [rest [Hpath Hfirst]]] [Hlast _]]]].
    split; [|split; assumption].
    right. exists first, rest. split; [assumption|]. split; [assumption|].
    now rewrite Hlast.
Qed.

Lemma pathfinding_path_shape_witness :
  exists path,
    pathfinding 5 (createPosition 0 0) (createPosition 1 0)
                (createGraph
                   [ createVertex (createPosition 0 0) [bareEdge (createPosition 1 0)];
                     createVertex (createPosition 1 0) [bareEdge (createPosition 0 0)] ] 2) []
    = Some (Ok path)
    /\ followsEdges path
    /\ (path = [] \/
        exists first rest, path = first :: rest /\ pos first = createPosition 0 0
                           /\ pos (last path first) = createPosition 1 0).
Proof.
  eexists. split; [vm_compute; reflexivity|].
  refine (let H := @pathfinding_path_shape 5 (createPosition 0 0) (createPosition 1 0)
                     (createGraph
                        [ createVertex (createPosition 0 0) [bareEdge (createPosition 1 0)];
                          createVertex (createPosition 1 0) [bareEdge (createPosition 0 0)] ] 2)
                     [] _ _ in conj (proj2 (proj2 H)) (proj1 H)).
  vm_compute. reflexivity.
Defined.

(** X19. When the destination differs from the source and is not walkable
    by enemies, [pathfinding] returns no path other than the empty one. *)
Theorem pathfinding_blocked_destination (fuel : nat) (src dst : Position) (G : Graph)
        (actors : list Actor) (path : list Vertex) :
  dst <> src -> isWalkableByEnemy actors dst = false ->
  pathfinding fuel src dst G actors = Some (Ok path) ->
  path = [].
Proof.
  intros Hne Hblocked Hrun.
  destruct (pathfinding_traced _ _ _ _ _ Hrun) as [-> | [node [Htr [Hdst Hpath]]]];
    [reflexivity | exfalso].
  pose proof (pathfinding_passable _ _ _ _ _ Hrun) as Hpass.
  destruct (@reconstructPath_traced src G node Htr) as [_ [_ [[first [rest [Hshape _]]] [Hlast _]]]].
  assert (Hin : In (nvertex node) path).
  { rewrite Hpath, <- (Hlast first), Hshape.
    assert (Hnonempty : first :: rest <> []) by discriminate.
    destruct (exists_last Hnonempty) as [front [lastv Hsplit]]. rewrite Hsplit.
    rewrite last_last. apply in_or_app. right. now left. }
  rewrite Forall_forall in Hpass. unfold nodePos in Hdst.
  destruct (Hpass _ Hin) as [Hsrc | Hwalk]; congruence.
Qed.

Lemma pathfinding_blocked_destination_witness :
  pathfinding 5 (createPosition 0 0) (createPosition 1 0)
              (createGraph
                 [ createVertex (createPosition 0 0) [bareEdge (createPosition 1 0)];
                   createVertex (createPosition 1 0) [bareEdge (createPosition 0 0)] ] 2)
              [setActorPosition (copyNewActor marmite 0) (createPosition 1 0)]
  = Some (Ok []).
Proof.
  assert (Hrun : exists path,
             pathfinding 5 (createPosition 0 0) (createPosition 1 0)
               (createGraph
                  [ createVertex (createPosition 0 0) [bareEdge (createPosition 1 0)];
                    createVertex (createPosition 1 0) [bareEdge (createPosition 0 0)] ] 2)
               [setActorPosition (copyNewActor marmite 0) (createPosition 1 0)]
             = Some (Ok path)) by (eexists; vm_compute; reflexivity).
  destruct Hrun as [path Hrun]. rewrite Hrun. do 2 f_equal.
  apply (@pathfinding_blocked_destination 5 (createPosition 0 0) (createPosition 1 0)
           (createGraph
              [ createVertex (createPosition 0 0) [bareEdge (createPosition 1 0)];
                createVertex (createPosition 1 0) [bareEdge (createPosition 0 0)] ] 2)
           [setActorPosition (copyNewActor marmite 0) (createPosition 1 0)] path);
    [discriminate | reflexivity | exact Hrun].
Defined.

(** X20. When the source position holds a vertex, the search from it to
    itself returns the path made of that single vertex, whatever the actors
    and as soon as there is fuel for one iteration. *)
Theorem pathfinding_same_cell (fuel : nat) (p : Position) (G : Graph) (actors : list Actor)
        (v0 : Vertex) :
  VertexTs.getVertexByPos (vertexes G) p = Ok v0 ->
  pathfinding (S fuel) p p G actors = Some (Ok [v0]).
Proof.
  intros Hv0. unfold pathfinding. rewrite Hv0.
  destruct (getVertexByPos_Ok _ _ Hv0) as [_ Hpos].
  simpl.
  destruct (PrimFloat.ltb _ _); simpl; rewrite Hpos, positionEquals_refl; reflexivity.
Qed.

Lemma pathfinding_same_cell_witness :
  pathfinding 1 (createPosition 1 0) (createPosition 1 0)
              (createGraph
                 [ createVertex (createPosition 0 0) [bareEdge (createPosition 1 0)];
                   createVertex (createPosition 1 0) [bareEdge (createPosition 0 0)] ] 2)
              [setActorPosition (copyNewActor marmite 0) (createPosition 1 0)]
  = Some (Ok [createVertex (createPosition 1 0) [bareEdge (createPosition 0 0)]]).
Proof.
  apply pathfinding_same_cell. reflexivity.
Defined.

(** ** The search ends *)

Section SearchEnds.
Variables (src dst : Position) (G : Graph) (actors : list Actor).

Lemma isNodeInList_In (nodes : list Node) (node : Node) :
  isNodeInList nodes node = true <-> In (nodePos node) (map nodePos nodes).
Proof.
  unfold nodePos. induction nodes as [|hd tl IH]; simpl; [split; [discriminate | tauto]|].
  destruct (positionEquals (pos (nvertex hd)) (pos (nvertex node))) eqn:E.
  - apply positionEquals_eq in E. split; [now left | reflexivity].
  - apply positionEquals_neq in E. rewrite IH. tauto.
Qed.

Lemma removeNodeFromList_spec (nodes : list Node) (current : Node) :
  NoDup (map nodePos nodes) -> In current nodes ->
  NoDup (map nodePos (removeNodeFromList nodes current))
  /\ ~ In (nodePos current) (map nodePos (removeNodeFromList nodes current))
  /\ incl (map nodePos (removeNodeFromList nodes current)) (map nodePos nodes).
Proof.
  induction nodes as [|hd tl IH]; simpl; [contradiction|].
  intros Hnd Hin. inversion Hnd as [|? ? Hnotin Hnd']; subst.
  fold (nodePos hd). fold (nodePos current).
  destruct (positionEquals (nodePos hd) (nodePos current)) eqn:E.
  - apply positionEquals_eq in E. rewrite <- E.
    split; [assumption|]. split; [assumption|]. intros p Hp. now right.
  - apply positionEquals_neq in E.
    destruct Hin as [-> | Hin]; [congruence|].
    destruct (IH Hnd' Hin) as [Hnd1 [Hgone Hincl]]. simpl. split; [|split].
    + constructor; [|assumption]. intros Hp. apply Hnotin. now apply Hincl.
    + intros [Heq | Hp]; [congruence | contradiction].
    + intros p [<- | Hp]; [now left | right; now apply Hincl].
Qed.

Lemma updateNodeInList_found (nodes : list Node) (node : Node) :
  isNodeInList nodes node = true ->
  exists updated, updateNodeInList nodes node = Ok updated
                  /\ map nodePos updated = map nodePos nodes.
Proof.
  induction nodes as [|hd tl IH]; simpl; [discriminate|].
  destruct (positionEquals (pos (nvertex hd)) (pos (nvertex node))) eqn:E.
  - intros _. apply positionEquals_eq in E.
    destruct (distance node <? distance hd); eexists; (split; [reflexivity|]);
      [simpl; unfold nodePos at 1 3; now rewrite E | reflexivity].
  - intros Hin. destruct (IH Hin) as [rest [Hrest Hpos]]. rewrite Hrest. simpl.
    eexists. split; [reflexivity|]. simpl. now rewrite Hpos.
Qed.

Lemma walkable_positions (nodes : list Node) (p : Position) :
  Forall (fun node => isWalkableByEnemy actors (nodePos node) = true) nodes ->
  In p (map nodePos nodes) -> isWalkableByEnemy actors p = true.
Proof.
  intros Hall Hin. apply in_map_iff in Hin. destruct Hin as [node [<- Hnode]].
  rewrite Forall_forall in Hall. now apply Hall.
Qed.

Lemma visitEdge_state (current : Node) (openList closedList : list Node) (edge : Edge)
      (openList' closedList' : list Node) :
  searchInvariant G src actors openList closedList ->
  tracedFrom G src current -> In edge (adj (nvertex current)) ->
  visitEdge current dst G actors (openList, closedList) edge = Ok (openList', closedList') ->
  searchInvariant G src actors openList' closedList'
  /\ (length closedList <= length closedList')%nat.
Proof.
  intros [Htr [Hwalk [Hndo [Hndc [Hdisj Hincl]]]]] Hcur Hedge. unfold visitEdge.
  destruct (VertexTs.getVertexByPos (vertexes G) (pos (vertex edge))) as [v|e] eqn:Hv; simpl;
    [|discriminate].
  destruct (getVertexByPos_Ok _ _ Hv) as [Hvin Hvpos].
  set (neighbor := makeNode (Some current) v dst).
  assert (Hnpos : nodePos neighbor = pos v) by reflexivity.
  destruct (isNodeInList closedList neighbor) eqn:Hclosed.
  { intros [= <- <-]. split; [repeat split; assumption | lia]. }
  assert (Hfresh : ~ In (pos v) (map nodePos closedList)).
  { rewrite <- Hnpos, <- isNodeInList_In. congruence. }
  destruct (isWalkableByEnemy actors (pos v)) eqn:Hwv; simpl.
  - assert (Hnew : tracedFrom G src neighbor) by (eapply tracedFrom_neighbour; eassumption).
    destruct (isNodeInList openList neighbor) eqn:Hopen; simpl.
    + destruct (@updateNodeInList_found openList neighbor Hopen) as [updated [Hup Hpos]].
      rewrite Hup. simpl. intros [= <- <-]. split; [|lia].
      split; [eapply updateNodeInList_Forall; eassumption|].
      split; [eapply updateNodeInList_Forall; [exact Hwalk | | exact Hup];
              now rewrite Hnpos|].
      rewrite Hpos. repeat split; assumption.
    + intros [= <- <-]. split; [|lia]. unfold searchInvariant.
      rewrite appendList_app, map_app. simpl. rewrite Hnpos.
      assert (Hnotopen : ~ In (pos v) (map nodePos openList)).
      { rewrite <- Hnpos, <- isNodeInList_In. congruence. }
      split; [apply Forall_app; split; [assumption | constructor; [assumption | constructor]]|].
      split; [apply Forall_app; split; [assumption|];
              constructor; [now rewrite Hnpos | constructor]|].
      split; [apply NoDup_app; [assumption | repeat constructor; intros [] |];
              intros p Hp [<- | []]; contradiction|].
      split; [assumption|]. split; [|assumption].
      intros p Hp. apply in_app_iff in Hp. destruct Hp as [Hp | [<- | []]];
        [now apply Hdisj | assumption].
  - intros [= <- <-]. split; [|simpl; lia]. unfold searchInvariant. simpl. rewrite Hnpos.
    split; [assumption|]. split; [assumption|]. split; [assumption|].
    split; [constructor; assumption|]. split.
    + intros p Hp [<- | Hc]; [|now apply (Hdisj p)].
      pose proof (@walkable_positions openList _ Hwalk Hp). congruence.
    + intros p [<- | Hp]; [now apply in_map | now apply Hincl].
Qed.

Lemma visitEdges_state (current : Node) (edges : list Edge)
      (openList closedList openList' closedList' : list Node) :
  searchInvariant G src actors openList closedList ->
  tracedFrom G src current -> incl edges (adj (nvertex current)) ->
  listFoldR (fun acc edge => lists <- acc ;; visitEdge current dst G actors lists edge)
            (Ok (openList, closedList)) edges = Ok (openList', closedList') ->
  searchInvariant G src actors openList' closedList'
  /\ (length closedList <= length closedList')%nat.
Proof.
  intros Hinv Hcur Hincl. revert openList' closedList'.
  induction edges as [|edge rest IH]; simpl; intros openList' closedList'.
  - intros [= <- <-]. split; [assumption | lia].
  - destruct (listFoldR _ _ rest) as [[open1 closed1]|e]; simpl; [|discriminate].
    intros Hvisit.
    destruct (IH (fun e He => Hincl e (or_intror He)) open1 closed1 eq_refl) as [Hinv1 Hlen1].
    destruct (@visitEdge_state current open1 closed1 edge openList' closedList'
                Hinv1 Hcur (Hincl edge (or_introl eq_refl)) Hvisit)
      as [Hinv2 Hlen2].
    split; [assumption | lia].
Qed.

(** One unit of fuel per vertex not yet closed, and one more, is enough. *)
Lemma pathfindingRec_ends (fuel : nat) :
  forall openList closedList,
    Forall (tracedFrom G src) openList ->
    (Forall (fun node => isWalkableByEnemy actors (nodePos node) = true) openList
     \/ (length openList <= 1)%nat) ->
    NoDup (map nodePos openList) ->
    NoDup (map nodePos closedList) ->
    (forall p, In p (map nodePos openList) -> ~ In p (map nodePos closedList)) ->
    incl (map nodePos closedList) (map pos (vertexes G)) ->
    (length (vertexes G) - length closedList < fuel)%nat ->
    pathfindingRec fuel openList closedList dst G actors <> None.
Proof.
  induction fuel as [|fuel IH]; intros openList closedList Htr Hwalk Hndo Hndc Hdisj Hincl Hfuel;
    [lia|].
  simpl. destruct (isEmpty openList) eqn:Hempty; [discriminate|].
  destruct (extractClosestNode openList) as [current|e] eqn:Hext; [|discriminate].
  destruct (positionEquals (pos (nvertex current)) dst); [discriminate|].
  pose proof (@extractClosestNode_In openList current Hext) as Hin.
  assert (Hcur : tracedFrom G src current)
    by (rewrite Forall_forall in Htr; now apply Htr).
  destruct (@removeNodeFromList_spec openList current Hndo Hin) as [Hnd1 [Hgone Hincl1]].
  assert (Hinv1 : searchInvariant G src actors (removeNodeFromList openList current)
                                  (appendList closedList current)).
  { unfold searchInvariant. rewrite appendList_app, map_app. simpl.
    split; [now apply removeNodeFromList_Forall|]. split.
    { destruct Hwalk as [Hwalk | Hone]; [now apply removeNodeFromList_Forall|].
      destruct openList as [|only [|second rest]]; simpl in *; [contradiction| |lia].
      destruct Hin as [-> | []]. now rewrite positionEquals_refl. }
    split; [assumption|]. split.
    { apply NoDup_app; [assumption | repeat constructor; intros [] |].
      intros p Hp [<- | []]. apply (Hdisj (nodePos current)); [now apply in_map | assumption]. }
    split.
    { intros p Hp Hc. apply in_app_iff in Hc. destruct Hc as [Hc | [<- | []]];
        [apply (Hdisj p); [now apply Hincl1 | assumption] | contradiction]. }
    intros p Hp. apply in_app_iff in Hp. destruct Hp as [Hp | [<- | []]];
      [now apply Hincl|]. unfold nodePos. apply in_map. now apply (@tracedFrom_vertex src G). }
  assert (Hbound : (length (appendList closedList current) <= length (vertexes G))%nat).
  { destruct Hinv1 as [_ [_ [_ [Hndc1 [_ Hincl2]]]]].
    pose proof (NoDup_incl_length Hndc1 Hincl2) as Hlen.
    now rewrite !length_map in Hlen. }
  rewrite appendList_app, length_app in Hbound. simpl in Hbound.
  destruct (listFoldR _ _ (adj (nvertex current))) as [[open2 closed2]|e] eqn:Hfold;
    [|discriminate].
  destruct (@visitEdges_state current (adj (nvertex current)) _ _ open2 closed2
              Hinv1 Hcur (@incl_refl _ _) Hfold)
    as [[Htr2 [Hwalk2 [Hndo2 [Hndc2 [Hdisj2 Hincl2]]]]] Hlen2].
  rewrite appendList_app, length_app in Hlen2. simpl in Hlen2.
  apply IH; try assumption; [now left | lia].
Qed.

Lemma pathfindingRec_fuel (fuel : nat) :
  forall extra openList closedList answer,
    pathfindingRec fuel openList closedList dst G actors = Some answer ->
    pathfindingRec (fuel + extra) openList closedList dst G actors = Some answer.
Proof.
  induction fuel as [|fuel IH]; intros extra openList closedList answer; simpl; [discriminate|].
  destruct (isEmpty openList); [trivial|].
  destruct (extractClosestNode openList) as [current|e]; [|trivial].
  destruct (positionEquals (pos (nvertex current)) dst); [trivial|].
  destruct (listFoldR _ _ (adj (nvertex current))) as [[open2 closed2]|e]; [|trivial].
  apply IH.
Qed.

(** From the first call on, the answer exists and no longer depends on the
    fuel. *)
Lemma pathfinding_answer (v0 : Vertex) :
  In v0 (vertexes G) -> pos v0 = src ->
  exists answer,
    forall fuel, (length (vertexes G) < fuel)%nat ->
                 pathfindingRec fuel [makeNode None v0 dst] [] dst G actors = Some answer.
Proof.
  intros Hin Hpos.
  destruct (pathfindingRec (S (length (vertexes G))) [makeNode None v0 dst] [] dst G actors)
    as [answer|] eqn:Hrun.
  - exists answer. intros fuel Hfuel.
    replace fuel with (S (length (vertexes G)) + (fuel - S (length (vertexes G))))%nat by lia.
    now apply pathfindingRec_fuel.
  - exfalso. revert Hrun. apply pathfindingRec_ends.
    + constructor; [simpl; auto | constructor].
    + right. simpl. lia.
    + repeat constructor. intros [].
    + constructor.
    + intros p _ [].
    + intros p [].
    + simpl. lia.
Qed.

End SearchEnds.

(** ** The search does not throw on a graph whose edges are resolved *)

Section SearchTotal.
Variables (src dst : Position) (G : Graph) (actors : list Actor).
Hypothesis G_resolved : edgesResolved G.

Lemma getVertexByPos_found (vertexes : list Vertex) (p : Position) :
  In p (map pos vertexes) -> exists v, VertexTs.getVertexByPos vertexes p = Ok v.
Proof.
  induction vertexes as [|hd tl IH]; simpl; [contradiction|].
  destruct (positionEquals (pos hd) p) eqn:E; [intros _; now exists hd|].
  apply positionEquals_neq in E. intros [Heq | Hin]; [contradiction | now apply IH].
Qed.

Lemma visitEdge_total (current : Node) (lists : list Node * list Node) (edge : Edge) :
  In (nvertex current) (vertexes G) -> In edge (adj (nvertex current)) ->
  exists lists', visitEdge current dst G actors lists edge = Ok lists'.
Proof.
  intros Hcur Hedge. unfold visitEdge. destruct lists as [openList closedList].
  destruct (getVertexByPos_found _ _ (G_resolved _ _ Hcur Hedge)) as [v Hv].
  rewrite Hv. simpl.
  destruct (isNodeInList closedList _); [eexists; reflexivity|].
  destruct (negb (isWalkableByEnemy actors (pos v))); [eexists; reflexivity|].
  destruct (isNodeInList openList _) eqn:Hopen; simpl; [|eexists; reflexivity].
  destruct (@updateNodeInList_found openList _ Hopen) as [updated [Hup _]].
  rewrite Hup. simpl. eexists; reflexivity.
Qed.

Lemma visitEdges_total (current : Node) (edges : list Edge) (lists : list Node * list Node) :
  In (nvertex current) (vertexes G) -> incl edges (adj (nvertex current)) ->
  exists lists',
    listFoldR (fun acc edge => lists <- acc ;; visitEdge current dst G actors lists edge)
              (Ok lists) edges = Ok lists'.
Proof.
  intros Hcur Hincl. induction edges as [|edge rest IH]; simpl; [eexists; reflexivity|].
  destruct (IH (fun e He => Hincl e (or_intror He))) as [lists1 Hrest].
  rewrite Hrest. simpl. apply visitEdge_total; [assumption|]. apply Hincl. now left.
Qed.

Lemma pathfindingRec_no_throw (fuel : nat) :
  forall openList closedList e,
    Forall (tracedFrom G src) openList ->
    pathfindingRec fuel openList closedList dst G actors <> Some (Throw e).
Proof.
  induction fuel as [|fuel IH]; intros openList closedList e Htr; simpl; [discriminate|].
  destruct openList as [|hd tl] eqn:Hopen; simpl isEmpty; cbv iota; [discriminate|].
  rewrite <- Hopen in *.
  destruct (extractClosestNode openList) as [current|e'] eqn:Hext;
    [|subst openList; discriminate].
  assert (Hcur : tracedFrom G src current).
  { rewrite Forall_forall in Htr. apply Htr. now apply extractClosestNode_In. }
  destruct (positionEquals (pos (nvertex current)) dst); [discriminate|].
  destruct (@visitEdges_total current (adj (nvertex current))
              (removeNodeFromList openList current, appendList closedList current))
    as [[open2 closed2] Hfold];
    [now apply (@tracedFrom_vertex src G) | apply incl_refl |].
  rewrite Hfold. apply IH.
  eapply (@visitEdges_invariant dst G actors (tracedFrom G src)
            (@tracedFrom_neighbour src dst G actors));
    [exact Hcur | apply incl_refl | | exact Hfold].
  now apply removeNodeFromList_Forall.
Qed.

End SearchTotal.

(** X21. The search always ends: with more units of fuel than the graph has
    vertices, [pathfinding] gives an answer, a path or a thrown error, and the
    answer is the same for every such amount of fuel. *)
Theorem pathfinding_terminates (src dst : Position) (G : Graph) (actors : list Actor) :
  exists answer,
    forall fuel, (length (vertexes G) < fuel)%nat ->
                 pathfinding fuel src dst G actors = Some answer.
Proof.
  unfold pathfinding.
  destruct (VertexTs.getVertexByPos (vertexes G) src) as [v0|e] eqn:Hsrc.
  - destruct (getVertexByPos_Ok _ _ Hsrc) as [Hin Hpos].
    exact (@pathfinding_answer src dst G actors v0 Hin Hpos).
  - exists (Throw e). reflexivity.
Qed.

(** X22. On a graph whose every edge leads to the position of one of its
    vertices, and from a source position that holds a vertex, [pathfinding]
    never throws: with more fuel than the graph has vertices it returns a
    path, possibly the empty one. *)
Theorem pathfinding_never_throws (src dst : Position) (G : Graph) (actors : list Actor) :
  edgesResolved G -> In src (map pos (vertexes G)) ->
  exists path,
    forall fuel, (length (vertexes G) < fuel)%nat ->
                 pathfinding fuel src dst G actors = Some (Ok path).
Proof.
  intros Hres Hsrc. unfold pathfinding.
  destruct (getVertexByPos_found _ _ Hsrc) as [v0 Hv0]. rewrite Hv0.
  destruct (getVertexByPos_Ok _ _ Hv0) as [Hin Hpos].
  destruct (@pathfinding_answer src dst G actors v0 Hin Hpos) as [[path|e] Hanswer].
  - now exists path.
  - exfalso.
    apply (@pathfindingRec_no_throw src dst G actors Hres (S (length (vertexes G)))
             [makeNode None v0 dst] [] e).
    + constructor; [simpl; auto | constructor].
    + apply Hanswer. lia.
Qed.

Lemma pathfinding_never_throws_witness :
  exists path,
    forall fuel, (2 < fuel)%nat ->
      pathfinding fuel (createPosition 0 0) (createPosition 1 0)
                  (createGraph
                     [ createVertex (createPosition 0 0) [bareEdge (createPosition 1 0)];
                       createVertex (createPosition 1 0) [bareEdge (createPosition 0 0)] ] 2) []
      = Some (Ok path).
Proof.
  apply (@pathfinding_never_throws (createPosition 0 0) (createPosition 1 0)
           (createGraph
              [ createVertex (createPosition 0 0) [bareEdge (createPosition 1 0)];
                createVertex (createPosition 1 0) [bareEdge (createPosition 0 0)] ] 2) []).
  - intros v e [<- | [<- | []]] [<- | []]; simpl; tauto.
  - simpl. tauto.
Defined.

(** X23. In the world built for a size with non-negative coordinates, from
    any source inside the world, to any destination and whatever the actors,
    [pathfinding] returns a path (possibly empty) when given more fuel than
    the world has cells; it neither throws nor runs on. *)
Theorem pathfinding_in_built_world (size : Position) (fuelW : nat) (world : World)
        (src dst : Position) (actors : list Actor) :
  0 <= x size -> 0 <= y size ->
  buildWorld fuelW size = Some world ->
  isInWorld world src = true ->
  exists path,
    forall fuel, (x size + 1) * (y size + 1) < Z.of_nat fuel ->
                 pathfinding fuel src dst (graph world) actors = Some (Ok path).
Proof.
  intros Hx Hy Hworld Hsrc.
  assert (Hres : edgesResolved (graph world))
    by exact (@buildWorld_edgesResolved size Hx Hy fuelW world Hworld).
  assert (Hin : In src (map pos (vertexes (graph world)))).
  { apply (@buildWorld_positions size Hx Hy fuelW world src Hworld).
    apply isInWorld_bounds in Hsrc.
    now rewrite (@buildWorld_size size fuelW world Hworld) in Hsrc. }
  assert (Hcount : Z.of_nat (length (vertexes (graph world))) = (x size + 1) * (y size + 1)).
  { destruct (@buildWorld_grid size Hx Hy) as [world' [Hworld' [_ [_ [_ [Hlen _]]]]]].
    now rewrite (@buildWorld_deterministic _ _ _ _ _ Hworld Hworld'). }
  destruct (getVertexByPos_found _ _ Hin) as [v0 Hv0].
  destruct (getVertexByPos_Ok _ _ Hv0) as [Hv0in Hv0pos].
  destruct (@pathfinding_answer src dst (graph world) actors v0 Hv0in Hv0pos)
    as [[path|e] Hrun].
  - exists path. intros fuel Hfuel. unfold pathfinding. rewrite Hv0. apply Hrun. lia.
  - exfalso.
    apply (@pathfindingRec_no_throw src dst (graph world) actors Hres
             (S (length (vertexes (graph world)))) [makeNode None v0 dst] [] e);
      [constructor; [simpl; auto | constructor] | apply Hrun; lia].
Qed.

Lemma pathfinding_in_built_world_witness :
  exists world path,
    buildWorld 9 (createPosition 2 2) = Some world
    /\ forall fuel, (2 + 1) * (2 + 1) < Z.of_nat fuel ->
                    pathfinding fuel (createPosition 0 0) (createPosition 2 2) (graph world)
                                [setActorPosition (copyNewActor marmite 0) (createPosition 1 1)]
                    = Some (Ok path).
Proof.
  assert (Hw : exists world, buildWorld 9 (createPosition 2 2) = Some world)
    by (eexists; reflexivity).
  destruct Hw as [world Hw].
  assert (Hsrc : isInWorld world (createPosition 0 0) = true).
  { unfold isInWorld. rewrite (@buildWorld_size (createPosition 2 2) 9 world Hw). reflexivity. }
  assert (Hx : 0 <= x (createPosition 2 2)) by (simpl; lia).
  assert (Hy : 0 <= y (createPosition 2 2)) by (simpl; lia).
  destruct (@pathfinding_in_built_world (createPosition 2 2) 9 world
              (createPosition 0 0) (createPosition 2 2)
              [setActorPosition (copyNewActor marmite 0) (createPosition 1 1)]
              Hx Hy Hw Hsrc) as [path Hpath].
  exists world, path. split; [exact Hw | exact Hpath].
Defined.

(* ================================================================== *)
(** * Further properties of the enemy move and of the phases *)

(** X24. [getNextEnemyPos] never sends an enemy onto a blocked cell: the
    position it answers is the position of the actor itself or a cell
    walkable by enemies that one edge of the vertex under the actor leads to.
    With no GOAL actor in the registry it answers the position of the actor,
    without any search. *)
Theorem getNextEnemyPos_step (fuel : nat) (actor : Actor) (actors : list Actor) (world : World) :
  (forall p, getNextEnemyPos fuel actor actors world = Some (Ok p) ->
             p = position actor
             \/ (isWalkableByEnemy actors p = true
                 /\ exists u e, In u (vertexes (graph world)) /\ pos u = position actor
                                /\ In e (adj u) /\ pos (vertex e) = p))
  /\ ((forall a, In a actors -> type a <> GOAL) ->
      getNextEnemyPos fuel actor actors world = Some (Ok (position actor))).
Proof.
  split.
  - intros p. unfold getNextEnemyPos.
    destruct (chooseGoal actor actors) as [goal|]; [|intros [= <-]; now left].
    destruct (pathfinding fuel (position actor) (position goal) (graph world) actors)
      as [[path|e]|] eqn:Hrun; [|discriminate|discriminate].
    destruct path as [|first [|second rest]]; [intros [= <-]; now left | intros [= <-]; now left|].
    intros [= <-].
    pose proof (pathfinding_passable _ _ _ _ _ Hrun) as Hpass.
    rewrite Forall_forall in Hpass.
    destruct (Hpass second (or_intror (or_introl eq_refl))) as [Hsrc | Hwalk]; [now left|].
    right. split; [assumption|].
    destruct (pathfinding_traced _ _ _ _ _ Hrun) as [Hnil | [node [Htr [_ Hpath]]]];
      [discriminate|].
    destruct (@reconstructPath_traced (position actor) (graph world) node Htr)
      as [Hall [Hfollow [[first' [rest' [Hshape Hfirst]]] _]]].
    rewrite <- Hpath in Hall, Hfollow, Hshape. injection Hshape as <- _.
    simpl in Hfollow. destruct Hfollow as [[e [He Hpos]] _].
    exists first, e. repeat split; try assumption.
    rewrite Forall_forall in Hall. apply Hall. now left.
  - intros Hnone. unfold getNextEnemyPos, chooseGoal, getGoals.
    assert (E : getActorsByType actors GOAL = []).
    { apply isEmpty_true. now apply getActorsByType_empty. }
    now rewrite E.
Qed.

Lemma getNextEnemyPos_step_witness :
  getNextEnemyPos 0 (copyNewActor remyWithSpoon 1)
                  [copyNewActor remyWithSpoon 1; copyNewActor gusteauWithPan 2] boardWorld
  = Some (Ok (createPosition 0 5)).
Proof.
  apply (proj2 (getNextEnemyPos_step 0 (copyNewActor remyWithSpoon 1)
                  [copyNewActor remyWithSpoon 1; copyNewActor gusteauWithPan 2] boardWorld)).
  intros a [<- | [<- | []]]; discriminate.
Defined.

Section Totals.

Lemma totalDamage_app (anId : Z) (l1 l2 : list Attack) :
  totalDamage anId (l1 ++ l2) = totalDamage anId l1 + totalDamage anId l2.
Proof.
  induction l1 as [|atk rest IH]; simpl; [reflexivity|].
  destruct (attackId atk =? anId); lia.
Qed.

Lemma totalDamage_rev (anId : Z) (l : list Attack) :
  totalDamage anId (rev l) = totalDamage anId l.
Proof.
  induction l as [|atk rest IH]; simpl; [reflexivity|].
  rewrite totalDamage_app, IH. simpl. destruct (attackId atk =? anId); lia.
Qed.

Lemma totalDamage_nonneg (anId : Z) (l : list Attack) :
  Forall (fun atk => 0 <= damage atk) l -> 0 <= totalDamage anId l.
Proof.
  intros Hall. induction Hall as [|atk rest Hatk _ IH]; simpl; [lia|].
  destruct (attackId atk =? anId); lia.
Qed.

Lemma totalHeal_app (anId : Z) (l1 l2 : list Heal) :
  totalHeal anId (l1 ++ l2) = totalHeal anId l1 + totalHeal anId l2.
Proof.
  induction l1 as [|h rest IH]; simpl; [reflexivity|].
  destruct (healId h =? anId); lia.
Qed.

Lemma totalHeal_rev (anId : Z) (l : list Heal) :
  totalHeal anId (rev l) = totalHeal anId l.
Proof.
  induction l as [|h rest IH]; simpl; [reflexivity|].
  rewrite totalHeal_app, IH. simpl. destruct (healId h =? anId); lia.
Qed.

Lemma totalHeal_nonneg (anId : Z) (l : list Heal) :
  Forall (fun h => 0 <= healAmount h) l -> 0 <= totalHeal anId l.
Proof.
  intros Hall. induction Hall as [|h rest Hh _ IH]; simpl; [lia|].
  destruct (healId h =? anId); lia.
Qed.

Lemma Forall_rev_concat (A : Type) (P : A -> Prop) (ls : list (list A)) :
  Forall (Forall P) ls -> Forall P (rev (concat ls)).
Proof.
  intros Hall. apply Forall_rev. induction Hall as [|l rest Hl _ IH]; simpl; [constructor|].
  apply Forall_app. now split.
Qed.

Lemma fold_applyAttack_absent (anId : Z) (attacks : list Attack) :
  forall acc, getActorById (snd acc) anId = None ->
              getActorById (snd (fold_left applyAttack attacks acc)) anId = None.
Proof.
  induction attacks as [|atk rest IH]; intros acc Hnone; simpl; [assumption|].
  apply IH. destruct (Z.eq_dec (attackId atk) anId) as [Heq | Hne].
  - unfold applyAttack. now rewrite Heq, Hnone.
  - rewrite applyAttack_other; [assumption | congruence].
Qed.

Lemma setLifePoint_twice (a : Actor) (h1 h2 : Z) :
  setLifePoint (setLifePoint a h1) h2 = setLifePoint a h2.
Proof. reflexivity. Qed.

Lemma fold_applyAttack_total (anId : Z) (attacks : list Attack) :
  forall acc target,
    NoDup (map id (snd acc)) ->
    Forall (fun atk => 0 <= damage atk) attacks ->
    getActorById (snd acc) anId = Some target -> 0 < health target ->
    getActorById (snd (fold_left applyAttack attacks acc)) anId =
    if health target <=? totalDamage anId attacks then None
    else Some (setLifePoint target (health target - totalDamage anId attacks)).
Proof.
  induction attacks as [|atk rest IH]; intros acc target Hnd Hall Hget Hpos.
  - simpl. assert (E : (health target <=? 0) = false) by (apply Z.leb_gt; lia).
    now rewrite E, Z.sub_0_r, setLifePoint_same.
  - inversion Hall as [|? ? Hatk Hrest]; subst.
    pose proof (totalDamage_nonneg anId Hrest) as Hnonneg.
    change (fold_left applyAttack (atk :: rest) acc)
      with (fold_left applyAttack rest (applyAttack acc atk)).
    simpl totalDamage. destruct (attackId atk =? anId) eqn:E.
    + apply Z.eqb_eq in E. destruct acc as [w registry]. simpl snd in *.
      pose proof (applyAttack_spec w registry atk) as Hspec. rewrite E, Hget in Hspec.
      destruct Hspec as [Hkill Hhit].
      destruct (health target <=? damage atk) eqn:Hcmp.
      * apply Z.leb_le in Hcmp. destruct (Hkill Hcmp) as [_ Hgone].
        rewrite fold_applyAttack_absent; [|now apply Hgone].
        assert (E' : (health target <=? damage atk + totalDamage anId rest) = true)
          by (apply Z.leb_le; lia).
        now rewrite E'.
      * apply Z.leb_gt in Hcmp. destruct (Hhit Hcmp) as [hit [Hfound [Hhitdef Hhealth]]].
        rewrite (IH _ hit (applyAttack_NoDup (w, registry) atk Hnd) Hrest Hfound)
          by (rewrite Hhealth; lia).
        rewrite Hhealth.
        destruct (health target - damage atk <=? totalDamage anId rest) eqn:E1;
          destruct (health target <=? damage atk + totalDamage anId rest) eqn:E2;
          try reflexivity;
          try (apply Z.leb_le in E1; apply Z.leb_gt in E2; lia);
          try (apply Z.leb_gt in E1; apply Z.leb_le in E2; lia).
        rewrite Hhitdef, setLifePoint_twice. do 2 f_equal. lia.
    + apply Z.eqb_neq in E.
      apply IH; [now apply applyAttack_NoDup | assumption | | assumption].
      rewrite applyAttack_other; [assumption | congruence].
Qed.

Lemma fold_applyHeal_total (anId : Z) (heals : list Heal) :
  forall acc target,
    Forall (fun h => 0 <= healAmount h) heals ->
    getActorById (snd acc) anId = Some target -> health target <= maxHealth target ->
    getActorById (snd (fold_left applyHeal heals acc)) anId =
    Some (setLifePoint target
            (Z.min (health target + totalHeal anId heals) (maxHealth target))).
Proof.
  induction heals as [|h rest IH]; intros acc target Hall Hget Hle.
  - simpl. rewrite Z.add_0_r, Z.min_l by assumption. now rewrite setLifePoint_same.
  - inversion Hall as [|? ? Hh Hrest]; subst.
    pose proof (totalHeal_nonneg anId Hrest) as Hnonneg.
    change (fold_left applyHeal (h :: rest) acc)
      with (fold_left applyHeal rest (applyHeal acc h)).
    simpl totalHeal. destruct (healId h =? anId) eqn:E.
    + apply Z.eqb_eq in E. destruct acc as [w registry]. simpl snd in *.
      pose proof (applyHeal_spec w registry h) as Hspec. rewrite E, Hget in Hspec.
      destruct Hspec as [_ Hfound].
      rewrite (IH _ _ Hrest Hfound) by (simpl; lia).
      rewrite setLifePoint_twice. simpl. do 2 f_equal. lia.
    + apply Z.eqb_neq in E. apply IH; [assumption | | assumption].
      rewrite applyHeal_other; [assumption | congruence].
Qed.

Lemma replaceActor_sameShape (actors : list Actor) (anId : Z) (target : Actor) (newHealth : Z) :
  getActorById actors anId = Some target ->
  map (fun a => setLifePoint a 0) (replaceActor actors (setLifePoint target newHealth))
  = map (fun a => setLifePoint a 0) actors.
Proof.
  induction actors as [|hd tl IH]; simpl; [reflexivity|].
  destruct (id hd =? anId) eqn:E.
  - intros [= <-]. unfold copyActor. now rewrite Z.eqb_refl.
  - intros Hget. destruct (getActorById_Some _ _ Hget) as [_ Hid].
    rewrite Hid, E. simpl. now rewrite (IH Hget).
Qed.

End Totals.

(** X25. Damage adds up.  In a registry with unique identifiers and with
    non-negative damages, an actor with positive health h is, after the
    attack phase, removed when the damages aimed at its identifier by all
    proposals total at least h, and otherwise kept with health h minus that
    total: the outcome does not depend on the order of the pairs.  An
    identifier absent before the phase is absent after it. *)
Theorem attackResolver_total_damage (aWorld : World) (actors : list Actor)
        (proposals : list AttackProposal) (anId : Z) :
  (getActorById actors anId = None ->
   getActorById (snd (attackResolver aWorld actors proposals)) anId = None)
  /\ (forall target,
         NoDup (map id actors) ->
         Forall (Forall (fun atk => 0 <= damage atk)) proposals ->
         getActorById actors anId = Some target -> 0 < health target ->
         getActorById (snd (attackResolver aWorld actors proposals)) anId =
         if health target <=? totalDamage anId (concat proposals) then None
         else Some (setLifePoint target (health target - totalDamage anId (concat proposals)))).
Proof.
  rewrite attackResolver_flat. split.
  - intros Hnone. now apply fold_applyAttack_absent.
  - intros target Hnd Hall Hget Hpos.
    rewrite (@fold_applyAttack_total anId (rev (concat proposals)) (aWorld, actors) target);
      try assumption; [now rewrite totalDamage_rev | now apply Forall_rev_concat].
Qed.

Lemma attackResolver_total_damage_witness :
  getActorById
    (snd (attackResolver boardWorld sampleRegistry
            [[ {| attackId := 0; damage := 20 |} ];
             [ {| attackId := 1; damage := 30 |}; {| attackId := 0; damage := 30 |} ]])) 0
  = None
  /\ getActorById
       (snd (attackResolver boardWorld sampleRegistry
               [[ {| attackId := 0; damage := 20 |} ];
                [ {| attackId := 1; damage := 30 |}; {| attackId := 0; damage := 30 |} ]])) 1
     = Some (setLifePoint (copyNewActor remyWithSpoon 1) 170).
Proof.
  assert (Hnd : NoDup (map id sampleRegistry)).
  { simpl. repeat constructor; simpl; intuition discriminate. }
  assert (Hall : Forall (Forall (fun atk => 0 <= damage atk))
                   [[ {| attackId := 0; damage := 20 |} ];
                    [ {| attackId := 1; damage := 30 |}; {| attackId := 0; damage := 30 |} ]]).
  { repeat constructor; simpl; lia. }
  split.
  - apply (proj2 (attackResolver_total_damage boardWorld sampleRegistry
                    [[ {| attackId := 0; damage := 20 |} ];
                     [ {| attackId := 1; damage := 30 |}; {| attackId := 0; damage := 30 |} ]] 0)
                 (copyNewActor linguini 0) Hnd Hall eq_refl).
    simpl. lia.
  - apply (proj2 (attackResolver_total_damage boardWorld sampleRegistry
                    [[ {| attackId := 0; damage := 20 |} ];
                     [ {| attackId := 1; damage := 30 |}; {| attackId := 0; damage := 30 |} ]] 1)
                 (copyNewActor remyWithSpoon 1) Hnd Hall eq_refl).
    simpl. lia.
Defined.

(** X26. Healing adds up, capped.  With non-negative amounts, an actor
    present with health h at most maxHealth has, after the heal phase, health
    min(h + total, maxHealth), the total being that of the amounts aimed at
    its identifier by all proposals, in whatever order. *)
Theorem healResolver_total_heal (aWorld : World) (actors : list Actor)
        (proposals : list HealProposal) (anId : Z) (target : Actor) :
  Forall (Forall (fun h => 0 <= healAmount h)) proposals ->
  getActorById actors anId = Some target -> health target <= maxHealth target ->
  getActorById (snd (healResolver aWorld actors proposals)) anId =
  Some (setLifePoint target
          (Z.min (health target + totalHeal anId (concat proposals)) (maxHealth target))).
Proof.
  intros Hall Hget Hle. rewrite healResolver_flat.
  rewrite (@fold_applyHeal_total anId (rev (concat proposals)) (aWorld, actors) target);
    try assumption; [now rewrite totalHeal_rev | now apply Forall_rev_concat].
Qed.

Lemma healResolver_total_heal_witness :
  getActorById
    (snd (healResolver boardWorld
            [setLifePoint (copyNewActor remyWithSpoon 1) 185]
            [[ {| healId := 1; healAmount := 10 |} ]; [ {| healId := 1; healAmount := 10 |} ]])) 1
  = Some (setLifePoint (setLifePoint (copyNewActor remyWithSpoon 1) 185) 200).
Proof.
  apply (@healResolver_total_heal boardWorld
           [setLifePoint (copyNewActor remyWithSpoon 1) 185]
           [[ {| healId := 1; healAmount := 10 |} ]; [ {| healId := 1; healAmount := 10 |} ]]
           1 (setLifePoint (copyNewActor remyWithSpoon 1) 185)).
  - repeat constructor; simpl; lia.
  - reflexivity.
  - simpl. lia.
Defined.

(** X27. The heal phase changes nothing but health: with every health
    erased, the registry it returns is the registry it received, actor by
    actor and in the same order. *)
Theorem healResolver_only_health (aWorld : World) (actors : list Actor)
        (proposals : list HealProposal) :
  map (fun a => setLifePoint a 0) (snd (healResolver aWorld actors proposals))
  = map (fun a => setLifePoint a 0) actors.
Proof.
  unfold healResolver.
  apply (listFoldR_invariant
           (fun acc : World * list Actor =>
              map (fun a => setLifePoint a 0) (snd acc) = map (fun a => setLifePoint a 0) actors));
    [reflexivity|].
  intros acc proposal _ Hacc. destruct proposal as [|h rest]; [assumption|].
  apply (listFoldR_invariant
           (fun acc : World * list Actor =>
              map (fun a => setLifePoint a 0) (snd acc) = map (fun a => setLifePoint a 0) actors));
    [assumption|].
  intros acc2 h' _ Hacc2. unfold applyHeal.
  destruct (getActorById (snd acc2) (healId h')) as [target|] eqn:Hget; [|assumption].
  destruct (health target + healAmount h' >? maxHealth target); simpl;
    now rewrite (@replaceActor_sameShape (snd acc2) (healId h') target _ Hget).
Qed.

(** X28. The attack phase only removes actors or lowers or raises their
    health: the registry it returns is never longer than the one it received,
    and each of its actors is, health apart, an actor of the registry
    received. *)
Theorem attackResolver_only_health (aWorld : World) (actors : list Actor)
        (proposals : list AttackProposal) :
  (length (snd (attackResolver aWorld actors proposals)) <= length actors)%nat
  /\ Forall (fun a' => exists a, In a actors /\ setLifePoint a 0 = setLifePoint a' 0)
            (snd (attackResolver aWorld actors proposals)).
Proof.
  set (Q := fun a' : Actor => exists a, In a actors /\ setLifePoint a 0 = setLifePoint a' 0).
  set (P := fun acc : World * list Actor =>
              (length (snd acc) <= length actors)%nat /\ Forall Q (snd acc)).
  assert (Hremove : forall l i, (length (removeActor l i) <= length l)%nat).
  { induction l as [|hd tl IH]; intros i; simpl; [lia|].
    destruct (id hd =? i); simpl; [lia | specialize (IH i); lia]. }
  assert (Hstep : forall acc atk, P acc -> P (applyAttack acc atk)).
  { intros acc atk [Hlen Hall]. unfold applyAttack.
    destruct (getActorById (snd acc) (attackId atk)) as [target|] eqn:Hget; [|now split].
    destruct (getActorById_Some _ _ Hget) as [Hin _].
    destruct (health target <=? damage atk); split; simpl.
    - specialize (Hremove (snd acc) (id target)). lia.
    - now apply removeActor_Forall.
    - rewrite <- (length_map id), replaceActor_ids, length_map. exact Hlen.
    - apply replaceActor_Forall; [assumption|].
      rewrite Forall_forall in Hall. destruct (Hall target Hin) as [a [Ha Heq]].
      exists a. split; [assumption | exact Heq]. }
  change (P (attackResolver aWorld actors proposals)). unfold attackResolver.
  apply (listFoldR_invariant P).
  - split; [simpl; lia|]. apply Forall_forall. intros a Ha. exists a. now split.
  - intros acc proposal _ Hacc. destruct proposal as [|atk rest]; [assumption|].
    apply (listFoldR_invariant P); [assumption|]. intros acc2 a _ H. now apply Hstep.
Qed.

(** ** Instances of the remaining statements *)

Lemma readListAt_index_witness :
  readListAt [10; 20] 5 = None /\ readListAt [10; 20] (-3) = nth_error [10; 20] 0.
Proof.
  destruct (readListAt_index [10; 20] 5) as [_ [_ Hnone]].
  destruct (readListAt_index [10; 20] (-3)) as [_ [Hread _]].
  split; [|exact Hread].
  apply (proj2 Hnone). vm_compute. discriminate.
Defined.

Lemma getAllActorsInRange_spec_witness :
  In (copyNewActor linguini 0) sampleRegistry
  /\ id (copyNewActor linguini 0) <> id (copyNewActor remyWithSpoon 1).
Proof.
  apply (proj2 (getAllActorsInRange_spec sampleRegistry (copyNewActor remyWithSpoon 1) 100%float)
               (copyNewActor linguini 0)).
  vm_compute. right. left. reflexivity.
Defined.

Lemma initializeActors_ids_witness :
  7 <= id (copyNewActor (setActorPosition worktop (createPosition 0 10)) 7)
    < snd (initializeActors boardWorld 7).
Proof.
  apply (proj2 (proj2 (proj2 (initializeActors_ids boardWorld 7)))).
  left. reflexivity.
Defined.

Lemma pathfinding_terminates_witness :
  exists answer,
    pathfinding 3 (createPosition 0 0) (createPosition 1 0)
                (createGraph
                   [ createVertex (createPosition 0 0) [bareEdge (createPosition 1 0)];
                     createVertex (createPosition 1 0) [bareEdge (createPosition 0 0)] ] 2) []
    = Some answer.
Proof.
  destruct (pathfinding_terminates (createPosition 0 0) (createPosition 1 0)
              (createGraph
                 [ createVertex (createPosition 0 0) [bareEdge (createPosition 1 0)];
                   createVertex (createPosition 1 0) [bareEdge (createPosition 0 0)] ] 2) [])
    as [answer Hanswer].
  exists answer. apply Hanswer. simpl. lia.
Defined.
